(** * MCX: the authoritative game loop of [mcx.js]

    A shallow embedding of the server side of [mcx.js]: the [input] and
    [disconnect] socket handlers, the [connection] handler and the fixed-rate
    simulation tick, followed by the properties of the world state that the
    design document states about them.

    Modelling choices.
    - JavaScript numbers that hold coordinates, velocities and angles are
      real numbers ([R]) in the world state: the arithmetic of the source is
      read over the reals, without the rounding of binary64, and the numbers
      of a message are the finite ones.  (JSON cannot carry [NaN]; it can
      carry an infinity, written 1e999, which [typeof] takes for a number: a
      message that stages one is outside the model.)  What depends on the
      rounding is stated on [Double], the movement arithmetic of the player
      loop on binary64 itself.
    - [Date.now()] results, [health], [lastShot], [respawnAt] and
      [nextBulletId] only ever hold integers and are modelled in [Z].
    - [players] and [bullets] are JavaScript objects used as maps.  [for .. in]
      visits their keys in insertion order, and the collision scan stops at the
      first hit, so the order is observable: both are association lists in
      insertion order, with the assignment, [delete] and mutation through a
      reference written out.  A bullet key is [String(n)] for the integer [n]
      drawn from [nextBulletId]; the model keeps [n] itself, and since the
      counter only grows, ascending keys and insertion order agree.  A player
      key is a socket identifier, a string of twenty characters and so never
      an array index, which [for .. in] would visit out of insertion order.
    - [Math.random()] is an explicit argument: a real in the interval [0, 1). *)

From Stdlib Require Import Reals Lra Lia ZArith List String Bool Sorted.
From Stdlib Require QArith PrimFloat FloatOps SpecFloat.
Import ListNotations.

Local Open Scope string_scope.
Local Open Scope list_scope.
Local Open Scope Z_scope.

(** ** JavaScript values received from a client *)

Module Js.

#[local] Set Warnings "-register-all".
Inductive value : Type :=
| Undefined
| Null
| Boolean (b : bool)
| Number (r : R)
| Str (s : string)
| Object (fields : list (string * value)).

(** [ToBoolean]: what [!!v] and [if (v)] see. *)
Definition truthy (v : value) : bool :=
  match v with
  | Undefined | Null => false
  | Boolean b => b
  | Number r => if Req_dec_T r 0%R then false else true
  | Str EmptyString => false
  | Str (String _ _) => true
  | Object _ => true
  end.

Fixpoint assoc (k : string) (fields : list (string * value)) : value :=
  match fields with
  | [] => Undefined
  | (k', v) :: rest => if String.eqb k k' then v else assoc k rest
  end.

Definition nullish (v : value) : bool :=
  match v with
  | Undefined | Null => true
  | _ => false
  end.

(** [v.k]: reading a property of [undefined] or [null] throws a
    [TypeError] ([None]); a missing property reads as [undefined], and the
    primitive wrappers have none of the property names the server reads. *)
Definition get (v : value) (k : string) : option value :=
  match v with
  | Undefined | Null => None
  | Boolean _ | Number _ | Str _ => Some Undefined
  | Object fields => Some (assoc k fields)
  end.

End Js.

(** ** Game constants *)

Definition WORLD_WIDTH : R := 1200.
Definition WORLD_HEIGHT : R := 800.
Definition PLAYER_RADIUS : R := 16.
Definition PLAYER_SPEED : R := 220.
Definition PLAYER_MAX_HEALTH : Z := 100.
Definition RESPAWN_TIME : Z := 2000.

Definition BULLET_SPEED : R := 600.
Definition BULLET_RADIUS : R := 4.
Definition BULLET_LIFETIME : Z := 2000.
Definition SHOOT_COOLDOWN : Z := 200.

(** ** In-memory game state *)

Module Input.
Record t : Type := mk
  { up : bool; down : bool; left : bool; right : bool;
    mouseAngle : R; shoot : bool }.
End Input.

Module Player.
Record t : Type := mk
  { id : string;
    x : R; y : R; vx : R; vy : R;
    angle : R;
    input : Input.t;
    health : Z;
    alive : bool;
    lastShot : Z;
    respawnAt : Z }.
End Player.

Module Bullet.
Record t : Type := mk
  { id : Z;
    x : R; y : R; vx : R; vy : R;
    ownerId : string;
    born : Z }.
End Bullet.

(** A JavaScript object used as a map from keys to records that carry their
    own key, in insertion order. *)
Section ObjectAsMap.
Variables (K V : Type).
Variable eqb : K -> K -> bool.
Variable key : V -> K.

(** [o[k]] *)
Fixpoint lookup (k : K) (o : list V) : option V :=
  match o with
  | [] => None
  | v :: rest => if eqb k (key v) then Some v else lookup k rest
  end.

(** [o[k] = v]: an existing key keeps its place, a new key goes last. *)
Fixpoint assign (v : V) (o : list V) : list V :=
  match o with
  | [] => [v]
  | v' :: rest =>
      if eqb (key v) (key v') then v :: rest else v' :: assign v rest
  end.

(** [delete o[k]] *)
Definition remove (k : K) (o : list V) : list V :=
  filter (fun v => negb (eqb k (key v))) o.

(** Mutation of the record stored under [k] through a reference to it. *)
Definition modify (k : K) (f : V -> V) (o : list V) : list V :=
  map (fun v => if eqb k (key v) then f v else v) o.
End ObjectAsMap.

Arguments lookup {K V} eqb key k o.
Arguments assign {K V} eqb key v o.
Arguments remove {K V} eqb key k o.
Arguments modify {K V} eqb key k f o.

Record World : Type := mkWorld
  { players : list Player.t;
    bullets : list Bullet.t;
    nextBulletId : Z;
    lastTick : Z }.

Definition player_of (sid : string) (w : World) : option Player.t :=
  lookup String.eqb Player.id sid (players w).

(** ** [io.on('connection')] *)

(** [Math.random() * (extent - 200) + 100] *)
Definition spawn_coord (extent rnd : R) : R := (rnd * (extent - 200) + 100)%R.

Definition new_player (sid : string) (rx ry : R) : Player.t :=
  {| Player.id := sid;
     Player.x := spawn_coord WORLD_WIDTH rx;
     Player.y := spawn_coord WORLD_HEIGHT ry;
     Player.vx := 0; Player.vy := 0;
     Player.angle := 0;
     Player.input := Input.mk false false false false 0 false;
     Player.health := PLAYER_MAX_HEALTH;
     Player.alive := true;
     Player.lastShot := 0;
     Player.respawnAt := 0 |}.

Definition on_connection (sid : string) (rx ry : R) (w : World) : World :=
  {| players := assign String.eqb Player.id (new_player sid rx ry) (players w);
     bullets := bullets w;
     nextBulletId := nextBulletId w;
     lastTick := lastTick w |}.

(** ** [socket.on('disconnect')] *)

Definition on_disconnect (sid : string) (w : World) : World :=
  {| players := remove String.eqb Player.id sid (players w);
     bullets := bullets w;
     nextBulletId := nextBulletId w;
     lastTick := lastTick w |}.

(** ** [socket.on('input')] *)

(** The four [p.input.k = !!input.k] assignments followed by the guarded
    assignment of [mouseAngle]. *)
Definition stage (u d l r a : Js.value) (i : Input.t) : Input.t :=
  {| Input.up := Js.truthy u;
     Input.down := Js.truthy d;
     Input.left := Js.truthy l;
     Input.right := Js.truthy r;
     Input.mouseAngle :=
       match a with
       | Js.Number n => n
       | _ => Input.mouseAngle i
       end;
     Input.shoot := Input.shoot i |}.

Definition with_input (i : Input.t) (p : Player.t) : Player.t :=
  {| Player.id := Player.id p;
     Player.x := Player.x p; Player.y := Player.y p;
     Player.vx := Player.vx p; Player.vy := Player.vy p;
     Player.angle := Player.angle p;
     Player.input := i;
     Player.health := Player.health p;
     Player.alive := Player.alive p;
     Player.lastShot := Player.lastShot p;
     Player.respawnAt := Player.respawnAt p |}.

Definition with_lastShot (t : Z) (p : Player.t) : Player.t :=
  {| Player.id := Player.id p;
     Player.x := Player.x p; Player.y := Player.y p;
     Player.vx := Player.vx p; Player.vy := Player.vy p;
     Player.angle := Player.angle p;
     Player.input := Player.input p;
     Player.health := Player.health p;
     Player.alive := Player.alive p;
     Player.lastShot := t;
     Player.respawnAt := Player.respawnAt p |}.

(** The object literal stored in [bullets[id]]; [p] is the player after
    staging, so [angle] is the aim just staged. *)
Definition new_bullet (n : Z) (sid : string) (now : Z) (p : Player.t) : Bullet.t :=
  let angle := Input.mouseAngle (Player.input p) in
  {| Bullet.id := n;
     Bullet.x := Player.x p + cos angle * (PLAYER_RADIUS + BULLET_RADIUS + 2);
     Bullet.y := Player.y p + sin angle * (PLAYER_RADIUS + BULLET_RADIUS + 2);
     Bullet.vx := cos angle * BULLET_SPEED;
     Bullet.vy := sin angle * BULLET_SPEED;
     Bullet.ownerId := sid;
     Bullet.born := now |}%R.

(** [now - p.lastShot >= SHOOT_COOLDOWN && p.alive] *)
Definition may_shoot (now : Z) (p : Player.t) : bool :=
  (SHOOT_COOLDOWN <=? now - Player.lastShot p) && Player.alive p.

(** The handler for session [sid] at the moment [Date.now() = now].
    [None] is the [TypeError] of reading a property of [undefined] or [null];
    it is thrown before anything has been written. *)
Definition on_input (sid : string) (input : Js.value) (now : Z) (w : World)
  : option World :=
  match player_of sid w with
  | None => Some w
  | Some p =>
      match Js.get input "up", Js.get input "down", Js.get input "left",
            Js.get input "right", Js.get input "mouseAngle",
            Js.get input "shoot" with
      | Some u, Some d, Some l, Some r, Some a, Some s =>
          let staged q := with_input (stage u d l r a (Player.input q)) q in
          if Js.truthy s && may_shoot now p then
            Some {| players :=
                      modify String.eqb Player.id sid
                        (fun q => with_lastShot now (staged q)) (players w);
                    bullets :=
                      assign Z.eqb Bullet.id
                        (new_bullet (nextBulletId w) sid now (staged p))
                        (bullets w);
                    nextBulletId := nextBulletId w + 1;
                    lastTick := lastTick w |}
          else
            Some {| players := modify String.eqb Player.id sid staged (players w);
                    bullets := bullets w;
                    nextBulletId := nextBulletId w;
                    lastTick := lastTick w |}
      | _, _, _, _, _, _ => None
      end
  end.

(** ** The game loop: one run of the [setInterval] callback *)

(** [Math.min(100, now - lastTick) / 1000], in seconds. *)
Definition tick_dt (now last : Z) : R := (IZR (Z.min 100 (now - last)) / 1000)%R.

(** [p.respawnAt && now >= p.respawnAt] *)
Definition respawn_due (now : Z) (p : Player.t) : bool :=
  negb (Player.respawnAt p =? 0) && (Player.respawnAt p <=? now).

Definition respawn (rx ry : R) (p : Player.t) : Player.t :=
  {| Player.id := Player.id p;
     Player.x := spawn_coord WORLD_WIDTH rx;
     Player.y := spawn_coord WORLD_HEIGHT ry;
     Player.vx := Player.vx p; Player.vy := Player.vy p;
     Player.angle := Player.angle p;
     Player.input := Player.input p;
     Player.health := PLAYER_MAX_HEALTH;
     Player.alive := true;
     Player.lastShot := Player.lastShot p;
     Player.respawnAt := 0 |}.

(** [dx] and [dy] after the four conditional increments. *)
Definition dir_x (i : Input.t) : R :=
  let dx := 0%R in
  let dx := if Input.left i then (dx - 1)%R else dx in
  if Input.right i then (dx + 1)%R else dx.

Definition dir_y (i : Input.t) : R :=
  let dy := 0%R in
  let dy := if Input.up i then (dy - 1)%R else dy in
  if Input.down i then (dy + 1)%R else dy.

(** [Math.hypot(dx, dy) || 1] *)
Definition hypot (a b : R) : R := sqrt (a * a + b * b).

Definition norm_len (dx dy : R) : R :=
  if Req_dec_T (hypot dx dy) 0%R then 1%R else hypot dx dy.

(** [Math.max(PLAYER_RADIUS, Math.min(extent - PLAYER_RADIUS, v))] *)
Definition clamp (extent v : R) : R :=
  Rmax PLAYER_RADIUS (Rmin (extent - PLAYER_RADIUS) v).

(** The body of the player loop for a player that is alive. *)
Definition move_player (dt : R) (p : Player.t) : Player.t :=
  let i := Player.input p in
  let dx := dir_x i in
  let dy := dir_y i in
  let len := norm_len dx dy in
  let vx := (dx / len * PLAYER_SPEED)%R in
  let vy := (dy / len * PLAYER_SPEED)%R in
  {| Player.id := Player.id p;
     Player.x := clamp WORLD_WIDTH (Player.x p + vx * dt);
     Player.y := clamp WORLD_HEIGHT (Player.y p + vy * dt);
     Player.vx := vx; Player.vy := vy;
     Player.angle :=
       (* p.input.mouseAngle || p.angle *)
       if Req_dec_T (Input.mouseAngle i) 0%R then Player.angle p
       else Input.mouseAngle i;
     Player.input := i;
     Player.health := Player.health p;
     Player.alive := Player.alive p;
     Player.lastShot := Player.lastShot p;
     Player.respawnAt := Player.respawnAt p |}.

(** [for (const id in players)]: [rnd] is the sequence of results of
    [Math.random()] during this tick and [k] the number already drawn. *)
Fixpoint update_players (now : Z) (dt : R) (rnd : nat -> R) (k : nat)
    (ps : list Player.t) : list Player.t :=
  match ps with
  | [] => []
  | p :: rest =>
      if negb (Player.alive p) then
        if respawn_due now p then
          respawn (rnd k) (rnd (S k)) p
            :: update_players now dt rnd (S (S k)) rest
        else p :: update_players now dt rnd k rest
      else move_player dt p :: update_players now dt rnd k rest
  end.

Definition move_bullet (dt : R) (b : Bullet.t) : Bullet.t :=
  {| Bullet.id := Bullet.id b;
     Bullet.x := Bullet.x b + Bullet.vx b * dt;
     Bullet.y := Bullet.y b + Bullet.vy b * dt;
     Bullet.vx := Bullet.vx b; Bullet.vy := Bullet.vy b;
     Bullet.ownerId := Bullet.ownerId b;
     Bullet.born := Bullet.born b |}%R.

(** [now - b.born > BULLET_LIFETIME] *)
Definition expired (now : Z) (b : Bullet.t) : bool :=
  BULLET_LIFETIME <? now - Bullet.born b.

Definition Rltb (a b : R) : bool := if Rlt_dec a b then true else false.
Definition Rleb (a b : R) : bool := if Rle_dec a b then true else false.

(** [b.x < -50 || b.x > WORLD_WIDTH + 50 || b.y < -50 || b.y > WORLD_HEIGHT + 50] *)
Definition out_of_world (b : Bullet.t) : bool :=
  Rltb (Bullet.x b) (-50) || Rltb (WORLD_WIDTH + 50) (Bullet.x b)
  || Rltb (Bullet.y b) (-50) || Rltb (WORLD_HEIGHT + 50) (Bullet.y b).

(** [!p.alive || pid === b.ownerId]: the players the scan passes over. *)
Definition skipped (b : Bullet.t) (p : Player.t) : bool :=
  negb (Player.alive p) || String.eqb (Player.id p) (Bullet.ownerId b).

(** [dist2 <= minDist * minDist] *)
Definition overlaps (b : Bullet.t) (p : Player.t) : bool :=
  let dx := (Player.x p - Bullet.x b)%R in
  let dy := (Player.y p - Bullet.y b)%R in
  let dist2 := (dx * dx + dy * dy)%R in
  let minDist := (PLAYER_RADIUS + BULLET_RADIUS)%R in
  Rleb dist2 (minDist * minDist).

(** The body of [if (dist2 <= minDist * minDist)], the bullet apart. *)
Definition hit (now : Z) (p : Player.t) : Player.t :=
  let health := Player.health p - 25 in
  let dead := health <=? 0 in
  {| Player.id := Player.id p;
     Player.x := Player.x p; Player.y := Player.y p;
     Player.vx := Player.vx p; Player.vy := Player.vy p;
     Player.angle := Player.angle p;
     Player.input := Player.input p;
     Player.health := health;
     Player.alive := if dead then false else Player.alive p;
     Player.lastShot := Player.lastShot p;
     Player.respawnAt := if dead then now + RESPAWN_TIME else Player.respawnAt p |}.

(** [for (const pid in players)] for one bullet: the players after the scan
    and whether the scan ended in a hit (and so in [delete bullets[id]] and
    [break]). *)
Fixpoint collide (now : Z) (b : Bullet.t) (ps : list Player.t)
  : list Player.t * bool :=
  match ps with
  | [] => ([], false)
  | p :: rest =>
      if skipped b p then
        let (rest', h) := collide now b rest in (p :: rest', h)
      else if overlaps b p then (hit now p :: rest, true)
      else
        let (rest', h) := collide now b rest in (p :: rest', h)
  end.

(** The body of [for (const id in bullets)] for the bullet [b]: the players
    after it, and the bullet as it stays in the store ([None] after a
    [delete bullets[id]]). *)
Definition step_bullet (now : Z) (dt : R) (ps : list Player.t) (b : Bullet.t)
  : list Player.t * option Bullet.t :=
  let b' := move_bullet dt b in
  if expired now b' then (ps, None)
  else if out_of_world b' then (ps, None)
  else
    let (ps', h) := collide now b' ps in
    (ps', if h then None else Some b').

(** [for (const id in bullets)]: the players and the bullets left in the
    store after the loop. *)
Fixpoint update_bullets (now : Z) (dt : R) (ps : list Player.t)
    (bs : list Bullet.t) : list Player.t * list Bullet.t :=
  match bs with
  | [] => (ps, [])
  | b :: rest =>
      let (ps', kept) := step_bullet now dt ps b in
      let (ps'', rest') := update_bullets now dt ps' rest in
      (ps'', match kept with Some b' => b' :: rest' | None => rest' end)
  end.

Definition tick (now : Z) (rnd : nat -> R) (w : World) : World :=
  let dt := tick_dt now (lastTick w) in
  let ps := update_players now dt rnd 0 (players w) in
  let (ps', bs') := update_bullets now dt ps (bullets w) in
  {| players := ps';
     bullets := bs';
     nextBulletId := nextBulletId w;
     lastTick := now |}.

(** ** The snapshot broadcast: the second [setInterval] callback *)

Module PlayerView.
Record t : Type := mk
  { id : string; x : R; y : R; angle : R; health : Z; alive : bool }.
End PlayerView.

Module BulletView.
Record t : Type := mk { id : Z; x : R; y : R }.
End BulletView.

Module Snapshot.
Record t : Type := mk
  { time : Z; players : list PlayerView.t; bullets : list BulletView.t }.
End Snapshot.

Definition view_player (p : Player.t) : PlayerView.t :=
  {| PlayerView.id := Player.id p;
     PlayerView.x := Player.x p;
     PlayerView.y := Player.y p;
     PlayerView.angle := Player.angle p;
     PlayerView.health := Player.health p;
     PlayerView.alive := Player.alive p |}.

Definition view_bullet (b : Bullet.t) : BulletView.t :=
  {| BulletView.id := Bullet.id b;
     BulletView.x := Bullet.x b;
     BulletView.y := Bullet.y b |}.

(** The object passed to [io.emit('snapshot', ...)] when [Date.now()] is
    [time]; [Object.values] lists a store in the order of [for .. in]. *)
Definition snapshot (time : Z) (w : World) : Snapshot.t :=
  {| Snapshot.time := time;
     Snapshot.players := map view_player (players w);
     Snapshot.bullets := map view_bullet (bullets w) |}.

Definition player_ids (ps : list Player.t) : list string := map Player.id ps.

(** ** The movement arithmetic on binary64 *)

Module Double.
Import QArith PrimFloat FloatOps SpecFloat.
#[local] Open Scope float_scope.

Definition PLAYER_SPEED : float := 220.

(** An integer held in a JavaScript number, exact below 2^53. *)
Fixpoint of_pos (p : positive) : float :=
  match p with
  | xH => 1
  | xO q => 2 * of_pos q
  | xI q => 2 * of_pos q + 1
  end.

Definition of_int (z : Z) : float :=
  match z with
  | Z0 => 0
  | Zpos p => of_pos p
  | Zneg p => - of_pos p
  end.

(** [dx] and [dy] after the four conditional increments. *)
Definition dir (minus plus : bool) : float :=
  let d := 0%float in
  let d := if minus then d - 1 else d in
  if plus then d + 1 else d.

(** [Math.hypot(a, b)].  ECMAScript leaves its precision to the
    implementation; the loop passes it 0, 1 and -1 only, for which the sum of
    the squares is exact and V8 returns its correctly rounded square root. *)
Definition hypot (a b : float) : float := sqrt (a * a + b * b).

(** The operands [||] passes over: 0, -0 and NaN. *)
Definition falsy (x : float) : bool := (x =? 0) || is_nan x.

(** [Math.hypot(dx, dy) || 1] *)
Definition norm_len (dx dy : float) : float :=
  if falsy (hypot dx dy) then 1 else hypot dx dy.

(** [p.vx] and [p.vy] as lines 131 to 138 assign them. *)
Definition velocity (i : Input.t) : float * float :=
  let dx := dir (Input.left i) (Input.right i) in
  let dy := dir (Input.up i) (Input.down i) in
  let len := norm_len dx dy in
  (dx / len * PLAYER_SPEED, dy / len * PLAYER_SPEED).

(** [Math.min(100, now - lastTick) / 1000] *)
Definition tick_dt (now last : Z) : float :=
  of_int (Z.min 100 (now - last)) / 1000.

(** [p.vx * dt] and [p.vy * dt], the increments of lines 139 and 140. *)
Definition step (i : Input.t) (now last : Z) : float * float :=
  let (vx, vy) := velocity i in
  (vx * tick_dt now last, vy * tick_dt now last).

(** The rational number a finite binary64 value stands for. *)
Definition exact (x : float) : option Q :=
  match Prim2SF x with
  | S754_zero _ => Some 0%Q
  | S754_finite s m e =>
      Some ((if s then -1 else 1) * inject_Z (Zpos m) * Qpower 2 e)%Q
  | S754_infinity _ | S754_nan => None
  end.

(** The square of the length of the velocity, in exact arithmetic. *)
Definition speed_sq (i : Input.t) : option Q :=
  let (vx, vy) := velocity i in
  match exact vx, exact vy with
  | Some a, Some b => Some (a * a + b * b)%Q
  | _, _ => None
  end.

(** Whether both increments of the step that follows [n] milliseconds are
    at most 22 in absolute value. *)
Definition step_within (u d l r : bool) (n : nat) : bool :=
  let '(sx, sy) := step (Input.mk u d l r 0 false) (Z.of_nat n) 0 in
  (abs sx <=? 22) && (abs sy <=? 22).

(** The velocity component of the diagonal directions. *)
Definition diagonal_component : float := 0x1.3720820155763p+7.

End Double.

(** ** Reachable world states *)

(** The contract of [Math.random()]. *)
Definition unit_interval (r : R) : Prop := (0 <= r < 1)%R.

(** The state at start-up; [t0] is the [Date.now()] that initialises
    [lastTick]. *)
Definition initial (t0 : Z) : World :=
  {| players := []; bullets := []; nextBulletId := 1; lastTick := t0 |}.

(** The handlers and the game loop run to completion one after the other, in
    any order, at any clock readings. *)
Inductive reachable : World -> Prop :=
| reach_initial t0 :
    reachable (initial t0)
| reach_connection sid rx ry w :
    reachable w -> unit_interval rx -> unit_interval ry ->
    reachable (on_connection sid rx ry w)
| reach_input sid input now w w' :
    reachable w -> on_input sid input now w = Some w' ->
    reachable w'
| reach_disconnect sid w :
    reachable w ->
    reachable (on_disconnect sid w)
| reach_tick now rnd w :
    reachable w -> (forall k, unit_interval (rnd k)) ->
    reachable (tick now rnd w).

(** ** Predicates used in the statements *)

(** [input.k] for a message that is neither [undefined] nor [null]. *)
Definition prop_of (input : Js.value) (k : string) : Js.value :=
  match Js.get input k with
  | Some v => v
  | None => Js.Undefined
  end.

Definition in_world (p : Player.t) : Prop :=
  (PLAYER_RADIUS <= Player.x p <= WORLD_WIDTH - PLAYER_RADIUS
   /\ PLAYER_RADIUS <= Player.y p <= WORLD_HEIGHT - PLAYER_RADIUS)%R.

Definition health_ok (p : Player.t) : Prop :=
  (Player.alive p = true -> 0 < Player.health p <= PLAYER_MAX_HEALTH)
  /\ (Player.alive p = false -> Player.health p <= 0).

Definition player_ok (p : Player.t) : Prop := health_ok p /\ in_world p.

Definition bullet_ids (bs : list Bullet.t) : list Z := map Bullet.id bs.

(** Every player is well formed, and the bullet keys are distinct and below
    the counter they are drawn from. *)
Definition world_ok (w : World) : Prop :=
  Forall player_ok (players w)
  /\ Forall (fun b => Bullet.id b < nextBulletId w) (bullets w)
  /\ NoDup (bullet_ids (bullets w)).

(** No direction key is held. *)
Definition idle (i : Input.t) : Prop :=
  Input.up i = false /\ Input.down i = false
  /\ Input.left i = false /\ Input.right i = false.

(** A player a bullet can hit: alive, not the owner of the bullet, and
    overlapping it. *)
Definition target (b : Bullet.t) (p : Player.t) : bool :=
  Player.alive p && negb (String.eqb (Player.id p) (Bullet.ownerId b))
  && overlaps b p.

(** The terminal conditions of a bullet that has just been moved, against
    the players as they are when its turn comes: older than its lifetime,
    beyond the margin around the world, or on top of a [target]. *)
Definition terminal (now : Z) (ps : list Player.t) (b : Bullet.t) : bool :=
  expired now b || out_of_world b || existsb (target b) ps.

(** What every player of a reachable world satisfies: the health is a
    multiple of 25 from 0 to the maximum, it is positive exactly for the
    players that are alive, and no respawn is pending for them. *)
Definition vital (p : Player.t) : Prop :=
  (exists n, Player.health p = 25 * n)
  /\ 0 <= Player.health p <= PLAYER_MAX_HEALTH
  /\ (Player.alive p = true <-> 0 < Player.health p)
  /\ (Player.alive p = true -> Player.respawnAt p = 0).

(** ** Sample runs

    The sessions of the sample runs are named "a" and "b" for short. *)

(** [Math.random()] returning 0 at every call. *)
Definition no_random : nat -> R := fun _ => 0%R.

(** One player, connected at the centre of the world. *)
Definition lobby : World := on_connection "a" (1/2) (1/2) (initial 0).

(** The same player holding up and right. *)
Definition runner : Player.t :=
  with_input (Input.mk true false false true 0 false)
    (new_player "a" (1/2) (1/2)).

(** The state after the handler has run; a handler that throws has written
    nothing. *)
Definition after_input (sid : string) (input : Js.value) (now : Z) (w : World)
  : World :=
  match on_input sid input now w with
  | Some w' => w'
  | None => w
  end.

Definition shoot_msg : Js.value := Js.Object [("shoot", Js.Boolean true)].

Definition aim_msg (r : R) : Js.value := Js.Object [("mouseAngle", Js.Number r)].

(** "a" fires at the time 1000: one bullet, [b1]. *)
Definition shot_fired : World := after_input "a" shoot_msg 1000 lobby.

Definition b1 : Bullet.t := new_bullet 1 "a" 1000 (new_player "a" (1/2) (1/2)).

(** "a" aims at the angle 1, a tick passes, "a" aims at the angle 0, a tick
    passes. *)
Definition aimed : World := after_input "a" (aim_msg 1) 10 lobby.
Definition turned : World := tick 16 no_random aimed.
Definition re_aimed : World := after_input "a" (aim_msg 0) 20 turned.
Definition settled : World := tick 32 no_random re_aimed.

(** "a" holds the up key. *)
Definition held : World :=
  after_input "a" (Js.Object [("up", Js.Boolean true)]) 10 lobby.

(** Two players on one horizontal line, 90 apart: the gunner "a", whose
    last shot was at [t], and its victim "b", with the health [h]. *)
Definition gunner (t : Z) : Player.t := with_lastShot t (new_player "a" 0 0).

Definition victim (h : Z) : Player.t :=
  {| Player.id := "b";
     Player.x := spawn_coord WORLD_WIDTH (9/100);
     Player.y := spawn_coord WORLD_HEIGHT 0;
     Player.vx := 0; Player.vy := 0;
     Player.angle := 0;
     Player.input := Input.mk false false false false 0 false;
     Player.health := h;
     Player.alive := true;
     Player.lastShot := 0;
     Player.respawnAt := 0 |}.

Definition duel (t0 next last : Z) (b : Player.t) : World :=
  {| players := [gunner t0; b]; bullets := []; nextBulletId := next;
     lastTick := last |}.

(** "a" fires at the time [t] and the game loop runs at once. *)
Definition volley (t : Z) (w : World) : World :=
  tick t no_random (after_input "a" shoot_msg t w).

(** Four volleys, 200 ms apart, all of which hit "b". *)
Definition graveyard : World :=
  volley 1600 (volley 1400 (volley 1200 (volley 1000
    (on_connection "b" (9/100) 0 (on_connection "a" 0 0 (initial 900)))))).

Definition fallen : Player.t := hit 1600 (victim 25).

(** A bullet beside the victim of the duel, fired by "a". *)
Definition shell : Bullet.t :=
  {| Bullet.id := 1;
     Bullet.x := 182; Bullet.y := 100;
     Bullet.vx := 600; Bullet.vy := 0;
     Bullet.ownerId := "a";
     Bullet.born := 1000 |}.

(** ** The object-as-map operations *)

Section ObjectAsMapFacts.
Context {K V : Type} (eqb : K -> K -> bool) (key : V -> K).
Hypothesis eqb_spec : forall a b, eqb a b = true <-> a = b.

Lemma lookup_modify k f o :
  (forall v, key (f v) = key v) ->
  lookup eqb key k (modify eqb key k f o) = option_map f (lookup eqb key k o).
Proof.
  intros Hkey. induction o as [|v o IH]; simpl; [reflexivity|].
  destruct (eqb k (key v)) eqn:E.
  - rewrite Hkey, E. reflexivity.
  - rewrite E. exact IH.
Qed.

Lemma remove_absent k o :
  lookup eqb key k o = None -> remove eqb key k o = o.
Proof.
  induction o as [|v o IH]; simpl; intros H; [reflexivity|].
  destruct (eqb k (key v)); [discriminate|]. simpl. now rewrite IH.
Qed.

Lemma lookup_remove k o : lookup eqb key k (remove eqb key k o) = None.
Proof.
  induction o as [|v o IH]; simpl; [reflexivity|].
  destruct (eqb k (key v)) eqn:E; simpl; [exact IH|].
  now rewrite E.
Qed.

Lemma lookup_remove_other k k' o :
  k <> k' ->
  lookup eqb key k' (remove eqb key k o) = lookup eqb key k' o.
Proof.
  intros Hne. induction o as [|v o IH]; simpl; [reflexivity|].
  destruct (eqb k (key v)) eqn:E; simpl.
  - apply eqb_spec in E. subst k.
    destruct (eqb k' (key v)) eqn:E'; [|exact IH].
    apply eqb_spec in E'. congruence.
  - now rewrite IH.
Qed.

Lemma assign_fresh v o :
  (forall v', In v' o -> key v' <> key v) -> assign eqb key v o = o ++ [v].
Proof.
  induction o as [|v' o IH]; simpl; intros H; [reflexivity|].
  destruct (eqb (key v) (key v')) eqn:E.
  - apply eqb_spec in E. exfalso. apply (H v'); auto.
  - rewrite IH; auto.
Qed.

Lemma assign_Forall (P : V -> Prop) v o :
  P v -> Forall P o -> Forall P (assign eqb key v o).
Proof.
  intros Hv. induction 1 as [|v' o Hv' Ho IH]; simpl.
  - auto.
  - destruct (eqb (key v) (key v')); auto.
Qed.

Lemma remove_Forall (P : V -> Prop) k o :
  Forall P o -> Forall P (remove eqb key k o).
Proof.
  induction 1 as [|v o Hv Ho IH]; simpl; [constructor|].
  destruct (eqb k (key v)); simpl; auto.
Qed.

Lemma modify_Forall (P : V -> Prop) k f o :
  (forall v, P v -> P (f v)) -> Forall P o -> Forall P (modify eqb key k f o).
Proof.
  intros Hf. induction 1 as [|v o Hv Ho IH]; simpl; [constructor|].
  constructor; [|exact IH]. destruct (eqb k (key v)); auto.
Qed.
End ObjectAsMapFacts.

Lemma string_eqb_spec (a b : string) : String.eqb a b = true <-> a = b.
Proof. apply String.eqb_eq. Qed.

Lemma z_eqb_spec (a b : Z) : Z.eqb a b = true <-> a = b.
Proof. apply Z.eqb_eq. Qed.

(** ** Comparisons of reals *)

Lemma Rltb_true a b : (a < b)%R -> Rltb a b = true.
Proof. intros H. unfold Rltb. destruct (Rlt_dec a b); [reflexivity|contradiction]. Qed.

Lemma Rltb_false a b : (b <= a)%R -> Rltb a b = false.
Proof. intros H. unfold Rltb. destruct (Rlt_dec a b); [lra|reflexivity]. Qed.

Lemma Rleb_true a b : (a <= b)%R -> Rleb a b = true.
Proof. intros H. unfold Rleb. destruct (Rle_dec a b); [reflexivity|contradiction]. Qed.

Lemma Rleb_false a b : (b < a)%R -> Rleb a b = false.
Proof. intros H. unfold Rleb. destruct (Rle_dec a b); [lra|reflexivity]. Qed.

Lemma clamp_bounds extent v :
  (2 * PLAYER_RADIUS <= extent)%R ->
  (PLAYER_RADIUS <= clamp extent v <= extent - PLAYER_RADIUS)%R.
Proof.
  intros H. unfold clamp. split.
  - apply Rmax_l.
  - apply Rmax_lub; [lra|apply Rmin_l].
Qed.

Lemma clamp_inside extent v :
  (PLAYER_RADIUS <= v <= extent - PLAYER_RADIUS)%R -> clamp extent v = v.
Proof.
  intros [H1 H2]. unfold clamp.
  rewrite Rmin_right by exact H2. apply Rmax_right. exact H1.
Qed.

Lemma spawn_coord_bounds extent rnd :
  (200 <= extent)%R -> unit_interval rnd ->
  (100 <= spawn_coord extent rnd <= extent - 100)%R.
Proof. unfold spawn_coord, unit_interval. intros H [H0 H1]. nra. Qed.

Lemma spawn_in_world rx ry :
  unit_interval rx -> unit_interval ry ->
  (PLAYER_RADIUS <= spawn_coord WORLD_WIDTH rx <= WORLD_WIDTH - PLAYER_RADIUS
   /\ PLAYER_RADIUS <= spawn_coord WORLD_HEIGHT ry
      <= WORLD_HEIGHT - PLAYER_RADIUS)%R.
Proof.
  intros Hx Hy.
  assert (Bx := spawn_coord_bounds WORLD_WIDTH rx).
  assert (By := spawn_coord_bounds WORLD_HEIGHT ry).
  unfold WORLD_WIDTH, WORLD_HEIGHT, PLAYER_RADIUS in *.
  specialize (Bx ltac:(lra) Hx). specialize (By ltac:(lra) Hy). lra.
Qed.

(** ** Well-formed worlds *)

Lemma new_player_ok sid rx ry :
  unit_interval rx -> unit_interval ry -> player_ok (new_player sid rx ry).
Proof.
  intros Hx Hy. split.
  - split; simpl; intros H; [unfold PLAYER_MAX_HEALTH; lia|discriminate].
  - unfold in_world; simpl. now apply spawn_in_world.
Qed.

Lemma respawn_ok rx ry p :
  unit_interval rx -> unit_interval ry -> player_ok (respawn rx ry p).
Proof.
  intros Hx Hy. split.
  - split; simpl; intros H; [unfold PLAYER_MAX_HEALTH; lia|discriminate].
  - unfold in_world; simpl. now apply spawn_in_world.
Qed.

Lemma move_player_ok dt p : player_ok p -> player_ok (move_player dt p).
Proof.
  intros [Hh _]. split.
  - exact Hh.
  - unfold in_world; simpl. split; apply clamp_bounds;
      unfold WORLD_WIDTH, WORLD_HEIGHT, PLAYER_RADIUS; lra.
Qed.

Lemma hit_ok now p :
  Player.alive p = true -> player_ok p -> player_ok (hit now p).
Proof.
  intros Ha [[Hl _] Hw]. specialize (Hl Ha). split; [|exact Hw].
  unfold health_ok, hit; simpl.
  destruct (Player.health p - 25 <=? 0) eqn:E.
  - apply Z.leb_le in E. split; [discriminate|intros _; exact E].
  - apply Z.leb_gt in E. rewrite Ha. split; [intros _; lia|discriminate].
Qed.

Lemma update_players_ok now dt rnd ps :
  (forall k, unit_interval (rnd k)) ->
  Forall player_ok ps ->
  forall k, Forall player_ok (update_players now dt rnd k ps).
Proof.
  intros Hr. induction 1 as [|p ps Hp Hps IH]; intros k; simpl; [constructor|].
  destruct (Player.alive p); simpl.
  - constructor; [now apply move_player_ok|apply IH].
  - destruct (respawn_due now p); constructor; auto using respawn_ok.
Qed.

Lemma collide_ok now b ps :
  Forall player_ok ps -> Forall player_ok (fst (collide now b ps)).
Proof.
  induction 1 as [|p ps Hp Hps IH]; simpl; [constructor|].
  destruct (skipped b p) eqn:Es.
  - destruct (collide now b ps) as [rest' h]; simpl in *. auto.
  - destruct (overlaps b p); simpl.
    + constructor; [|exact Hps]. apply hit_ok; [|exact Hp].
      unfold skipped in Es. apply orb_false_elim in Es as [Es _].
      now apply negb_false_iff in Es.
    + destruct (collide now b ps) as [rest' h]; simpl in *. auto.
Qed.

Lemma step_bullet_ok now dt ps b :
  Forall player_ok ps -> Forall player_ok (fst (step_bullet now dt ps b)).
Proof.
  intros H. unfold step_bullet.
  destruct (expired now (move_bullet dt b)); [exact H|].
  destruct (out_of_world (move_bullet dt b)); [exact H|].
  pose proof (collide_ok now (move_bullet dt b) ps H) as Hc.
  destruct (collide now (move_bullet dt b) ps) as [ps' h]. exact Hc.
Qed.

Lemma step_bullet_kept now dt ps b b' :
  snd (step_bullet now dt ps b) = Some b' -> b' = move_bullet dt b.
Proof.
  unfold step_bullet.
  destruct (expired now (move_bullet dt b)); [discriminate|].
  destruct (out_of_world (move_bullet dt b)); [discriminate|].
  destruct (collide now (move_bullet dt b) ps) as [ps' h].
  destruct h; simpl; congruence.
Qed.

Lemma update_bullets_ok now dt bs :
  forall ps, Forall player_ok ps ->
  Forall player_ok (fst (update_bullets now dt ps bs)).
Proof.
  induction bs as [|b bs IH]; intros ps H; simpl; [exact H|].
  pose proof (step_bullet_ok now dt ps b H) as Hs.
  destruct (step_bullet now dt ps b) as [ps' kept]. simpl in Hs.
  specialize (IH ps' Hs).
  destruct (update_bullets now dt ps' bs) as [ps'' rest']. exact IH.
Qed.

(** The loop only ever deletes bullets: the keys it leaves are keys it
    found, in the same order. *)
Lemma update_bullets_ids_incl now dt bs :
  forall ps n,
  In n (bullet_ids (snd (update_bullets now dt ps bs))) -> In n (bullet_ids bs).
Proof.
  induction bs as [|b bs IH]; intros ps n; simpl; [auto|].
  pose proof (step_bullet_kept now dt ps b) as Hk.
  destruct (step_bullet now dt ps b) as [ps' kept]. simpl in Hk.
  specialize (IH ps' n).
  destruct (update_bullets now dt ps' bs) as [ps'' rest']. simpl in *.
  destruct kept as [b'|]; simpl.
  - rewrite (Hk b' eq_refl). simpl. intros [H|H]; auto.
  - auto.
Qed.

Lemma update_bullets_ids_NoDup now dt bs :
  forall ps, NoDup (bullet_ids bs) ->
  NoDup (bullet_ids (snd (update_bullets now dt ps bs))).
Proof.
  induction bs as [|b bs IH]; intros ps H; simpl; [constructor|].
  simpl in H. inversion H as [|? ? Hnot Hrest]; subst.
  pose proof (step_bullet_kept now dt ps b) as Hk.
  destruct (step_bullet now dt ps b) as [ps' kept]. simpl in Hk.
  specialize (IH ps' Hrest).
  pose proof (update_bullets_ids_incl now dt bs ps') as Hincl.
  destruct (update_bullets now dt ps' bs) as [ps'' rest']. simpl in *.
  destruct kept as [b'|]; simpl; [|exact IH].
  rewrite (Hk b' eq_refl). simpl. constructor; [|exact IH].
  intros Hin. apply Hnot. now apply Hincl.
Qed.

Lemma in_bullet_ids n bs :
  In n (bullet_ids bs) -> exists b, In b bs /\ Bullet.id b = n.
Proof.
  unfold bullet_ids. rewrite in_map_iff. intros [b [E H]]. eauto.
Qed.

Lemma tick_ok now rnd w :
  (forall k, unit_interval (rnd k)) -> world_ok w -> world_ok (tick now rnd w).
Proof.
  intros Hr (Hp & Hf & Hn). unfold tick.
  set (dt := tick_dt now (lastTick w)).
  set (ps := update_players now dt rnd 0 (players w)).
  assert (Hps : Forall player_ok ps) by now apply update_players_ok.
  pose proof (update_bullets_ok now dt (bullets w) ps Hps) as H1.
  pose proof (update_bullets_ids_incl now dt (bullets w) ps) as H2.
  pose proof (update_bullets_ids_NoDup now dt (bullets w) ps Hn) as H3.
  destruct (update_bullets now dt ps (bullets w)) as [ps' bs']. simpl in *.
  split; [exact H1|]. split; [|exact H3]. simpl.
  rewrite Forall_forall in *. intros b Hb.
  destruct (in_bullet_ids (Bullet.id b) (bullets w)) as [b0 [Hin E]].
  - apply H2. unfold bullet_ids. now apply in_map.
  - rewrite <- E. now apply Hf.
Qed.

Lemma fresh_bullet_appended n sid now p bs :
  Forall (fun b => Bullet.id b < n) bs ->
  assign Z.eqb Bullet.id (new_bullet n sid now p) bs
  = bs ++ [new_bullet n sid now p].
Proof.
  intros H. apply (assign_fresh Z.eqb Bullet.id z_eqb_spec).
  intros b Hb. rewrite Forall_forall in H. specialize (H b Hb). simpl. lia.
Qed.

Lemma fresh_bullet_not_in n bs :
  Forall (fun b => Bullet.id b < n) bs -> ~ In n (bullet_ids bs).
Proof.
  intros H Hin. apply in_bullet_ids in Hin as [b [Hb E]].
  rewrite Forall_forall in H. specialize (H b Hb). lia.
Qed.

Lemma on_input_ok sid input now w w' :
  world_ok w -> on_input sid input now w = Some w' -> world_ok w'.
Proof.
  intros (Hp & Hf & Hn). unfold on_input.
  destruct (player_of sid w) as [p|]; [|intros [= <-]; now repeat split].
  destruct (Js.get input "up") as [u|]; [|discriminate].
  destruct (Js.get input "down") as [d|]; [|discriminate].
  destruct (Js.get input "left") as [l|]; [|discriminate].
  destruct (Js.get input "right") as [r|]; [|discriminate].
  destruct (Js.get input "mouseAngle") as [a|]; [|discriminate].
  destruct (Js.get input "shoot") as [s|]; [|discriminate].
  destruct (Js.truthy s && may_shoot now p); intros [= <-];
    (split; [apply modify_Forall; [intros v Hv; exact Hv|exact Hp]|]); simpl.
  - rewrite fresh_bullet_appended by exact Hf. split.
    + apply Forall_app. split.
      * eapply Forall_impl; [|exact Hf]. simpl. intros b Hb. lia.
      * constructor; [simpl; lia|constructor].
    + unfold bullet_ids. rewrite map_app. simpl.
      apply NoDup_app; [exact Hn|constructor; [intros []|constructor]|].
      intros n Hin [<-|[]]. revert Hin. now apply fresh_bullet_not_in.
  - now split.
Qed.

Lemma reachable_ok w : reachable w -> world_ok w.
Proof.
  induction 1 as [t0|sid rx ry w Hw IH Hx Hy|sid input now w w' Hw IH Hi
                 |sid w Hw IH|now rnd w Hw IH Hr].
  - repeat split; simpl; constructor.
  - destruct IH as (Hp & Hf & Hn). repeat split; simpl; auto.
    apply assign_Forall; [now apply new_player_ok|exact Hp].
  - eauto using on_input_ok.
  - destruct IH as (Hp & Hf & Hn). repeat split; simpl; auto.
    now apply remove_Forall.
  - now apply tick_ok.
Qed.

Lemma unit_half : unit_interval (1/2).
Proof. unfold unit_interval. lra. Qed.

Lemma unit_zero : unit_interval 0.
Proof. unfold unit_interval. lra. Qed.

Lemma no_random_unit k : unit_interval (no_random k).
Proof. exact unit_zero. Qed.

Lemma lobby_reachable : reachable lobby.
Proof. apply reach_connection; [constructor|exact unit_half|exact unit_half]. Qed.

(** ** The player loop *)

Lemma update_players_alive now dt rnd ps p :
  In p ps -> Player.alive p = true ->
  forall k, In (move_player dt p) (update_players now dt rnd k ps).
Proof.
  induction ps as [|q ps IH]; simpl; [contradiction|].
  intros [->|Hin] Ha k.
  - rewrite Ha. simpl. now left.
  - destruct (Player.alive q); simpl; [right; auto|].
    destruct (respawn_due now q); right; auto.
Qed.

Lemma update_players_respawn now dt rnd ps p :
  In p ps -> Player.alive p = false -> respawn_due now p = true ->
  forall k, exists rx ry, In (respawn rx ry p) (update_players now dt rnd k ps).
Proof.
  induction ps as [|q ps IH]; simpl; [contradiction|].
  intros [->|Hin] Ha Hd k.
  - rewrite Ha, Hd. simpl. exists (rnd k), (rnd (S k)). now left.
  - destruct (Player.alive q); simpl.
    + destruct (IH Hin Ha Hd k) as (rx & ry & H). eauto.
    + destruct (respawn_due now q).
      * destruct (IH Hin Ha Hd (S (S k))) as (rx & ry & H). exists rx, ry. now right.
      * destruct (IH Hin Ha Hd k) as (rx & ry & H). exists rx, ry. now right.
Qed.

Lemma hypot_zero : hypot 0 0 = 0%R.
Proof. unfold hypot. replace (0 * 0 + 0 * 0)%R with 0%R by lra. apply sqrt_0. Qed.

Lemma idle_direction i : idle i -> dir_x i = 0%R /\ dir_y i = 0%R.
Proof.
  intros (Hu & Hd & Hl & Hr). unfold dir_x, dir_y.
  rewrite Hu, Hd, Hl, Hr. split; reflexivity.
Qed.

Lemma norm_len_idle : norm_len 0 0 = 1%R.
Proof.
  unfold norm_len. rewrite hypot_zero.
  destruct (Req_dec_T 0 0); [reflexivity|contradiction].
Qed.

(** ** The bullet loop *)

Lemma target_skipped b p :
  target b p = negb (skipped b p) && overlaps b p.
Proof.
  unfold target, skipped. rewrite negb_orb, negb_involutive. reflexivity.
Qed.

(** The scan damages the first target in iteration order and nobody else. *)
Lemma collide_spec now b ps :
  (collide now b ps = (ps, false) /\ existsb (target b) ps = false)
  \/ (exists l1 p l2,
        ps = l1 ++ p :: l2
        /\ collide now b ps = (l1 ++ hit now p :: l2, true)
        /\ existsb (target b) l1 = false
        /\ target b p = true).
Proof.
  induction ps as [|q ps IH]; simpl; [left; split; reflexivity|].
  rewrite (target_skipped b q).
  destruct (skipped b q) eqn:Es; simpl.
  - destruct IH as [[-> Hn]|(l1 & p & l2 & -> & -> & Hn & Ht)].
    + left. split; [reflexivity|exact Hn].
    + right. exists (q :: l1), p, l2. simpl.
      rewrite (target_skipped b q), Es. simpl. repeat split; assumption.
  - destruct (overlaps b q) eqn:Eo; simpl.
    + right. exists [], q, ps. simpl. rewrite target_skipped, Es, Eo.
      repeat split.
    + destruct IH as [[-> Hn]|(l1 & p & l2 & -> & -> & Hn & Ht)].
      * left. split; [reflexivity|exact Hn].
      * right. exists (q :: l1), p, l2. simpl.
        rewrite (target_skipped b q), Es, Eo. simpl. repeat split; assumption.
Qed.

Lemma collide_hit now b ps : snd (collide now b ps) = existsb (target b) ps.
Proof.
  destruct (collide_spec now b ps) as [[-> ->]|(l1 & p & l2 & -> & -> & Hn & Ht)].
  - reflexivity.
  - simpl. rewrite existsb_app. simpl. rewrite Ht, orb_true_r. reflexivity.
Qed.

Lemma step_bullet_terminal now dt ps b :
  snd (step_bullet now dt ps b)
  = if terminal now ps (move_bullet dt b) then None
    else Some (move_bullet dt b).
Proof.
  unfold step_bullet, terminal.
  destruct (expired now (move_bullet dt b)); [reflexivity|].
  destruct (out_of_world (move_bullet dt b)); [reflexivity|]. simpl.
  rewrite <- (collide_hit now (move_bullet dt b) ps).
  destruct (collide now (move_bullet dt b) ps) as [ps' h]. reflexivity.
Qed.

Lemma update_bullets_app now dt l1 l2 :
  forall ps,
  update_bullets now dt ps (l1 ++ l2)
  = (fst (update_bullets now dt (fst (update_bullets now dt ps l1)) l2),
     snd (update_bullets now dt ps l1)
     ++ snd (update_bullets now dt (fst (update_bullets now dt ps l1)) l2)).
Proof.
  induction l1 as [|b l1 IH]; intros ps; simpl.
  - now destruct (update_bullets now dt ps l2).
  - destruct (step_bullet now dt ps b) as [ps' kept].
    rewrite IH.
    destruct (update_bullets now dt ps' l1) as [ps1 out1]. simpl.
    destruct kept; reflexivity.
Qed.

Lemma update_bullets_app_snd now dt l1 l2 ps :
  snd (update_bullets now dt ps (l1 ++ l2))
  = snd (update_bullets now dt ps l1)
    ++ snd (update_bullets now dt (fst (update_bullets now dt ps l1)) l2).
Proof. now rewrite update_bullets_app. Qed.

Lemma lookup_owner_after_hit now owner p l1 l2 :
  Player.id p <> owner ->
  lookup String.eqb Player.id owner (l1 ++ hit now p :: l2)
  = lookup String.eqb Player.id owner (l1 ++ p :: l2).
Proof.
  intros Hne. induction l1 as [|q l1 IH]; simpl.
  - destruct (String.eqb owner (Player.id p)) eqn:E; [|reflexivity].
    apply String.eqb_eq in E. congruence.
  - now rewrite IH.
Qed.

Lemma tick_bullets now rnd w :
  bullets (tick now rnd w)
  = snd (update_bullets now (tick_dt now (lastTick w))
           (update_players now (tick_dt now (lastTick w)) rnd 0 (players w))
           (bullets w)).
Proof.
  unfold tick.
  destruct (update_bullets now (tick_dt now (lastTick w))
              (update_players now (tick_dt now (lastTick w)) rnd 0 (players w))
              (bullets w)) as [ps bs].
  reflexivity.
Qed.

Lemma update_bullets_cons now dt ps b bs :
  snd (update_bullets now dt ps (b :: bs))
  = (if terminal now ps (move_bullet dt b) then [] else [move_bullet dt b])
    ++ snd (update_bullets now dt (fst (step_bullet now dt ps b)) bs).
Proof.
  simpl. pose proof (step_bullet_terminal now dt ps b) as Hk.
  destruct (step_bullet now dt ps b) as [ps' kept]. simpl in Hk. subst kept.
  simpl. destruct (update_bullets now dt ps' bs) as [ps'' rest'].
  destruct (terminal now ps (move_bullet dt b)); reflexivity.
Qed.

(** ** The input handler *)

Lemma truthy_prop_defined input k :
  Js.truthy (prop_of input k) = true -> Js.nullish input = false.
Proof. destruct input; simpl; try discriminate; reflexivity. Qed.

Lemma player_of_modified sid f ps bs n t p :
  (forall q, Player.id (f q) = Player.id q) ->
  lookup String.eqb Player.id sid ps = Some p ->
  player_of sid (mkWorld (modify String.eqb Player.id sid f ps) bs n t)
  = Some (f p).
Proof.
  intros Hf Hp. unfold player_of. simpl.
  rewrite lookup_modify by exact Hf. now rewrite Hp.
Qed.

(** What the handler does with a message that is neither [undefined] nor
    [null], for a session that has a player. *)
Lemma on_input_defined sid input now w p :
  player_of sid w = Some p -> Js.nullish input = false ->
  let staged q :=
    with_input
      (stage (prop_of input "up") (prop_of input "down")
         (prop_of input "left") (prop_of input "right")
         (prop_of input "mouseAngle") (Player.input q)) q in
  on_input sid input now w
  = if Js.truthy (prop_of input "shoot") && may_shoot now p then
      Some {| players :=
                modify String.eqb Player.id sid
                  (fun q => with_lastShot now (staged q)) (players w);
              bullets :=
                assign Z.eqb Bullet.id
                  (new_bullet (nextBulletId w) sid now (staged p)) (bullets w);
              nextBulletId := nextBulletId w + 1;
              lastTick := lastTick w |}
    else
      Some {| players := modify String.eqb Player.id sid staged (players w);
              bullets := bullets w;
              nextBulletId := nextBulletId w;
              lastTick := lastTick w |}.
Proof.
  intros Hp Hn staged. unfold on_input. rewrite Hp.
  destruct input; try discriminate; reflexivity.
Qed.

(** A message that is [undefined] or [null] makes the handler throw. *)
Lemma on_input_nullish sid input now w p :
  player_of sid w = Some p -> Js.nullish input = true ->
  on_input sid input now w = None.
Proof.
  intros Hp Hn. unfold on_input. rewrite Hp.
  destruct input; try discriminate; reflexivity.
Qed.

(** ** The sample runs *)

Lemma after_input_reachable sid input now w :
  reachable w -> reachable (after_input sid input now w).
Proof.
  intros Hw. unfold after_input.
  destruct (on_input sid input now w) eqn:E; [|exact Hw].
  eapply reach_input; eassumption.
Qed.

Lemma settled_reachable : reachable settled.
Proof.
  apply reach_tick; [|exact no_random_unit].
  apply after_input_reachable.
  apply reach_tick; [|exact no_random_unit].
  apply after_input_reachable. exact lobby_reachable.
Qed.

Ltac real_cmp :=
  repeat first
    [ rewrite Rltb_true by lra | rewrite Rltb_false by lra
    | rewrite Rleb_true by lra | rewrite Rleb_false by lra ].

Lemma b1_in_world :
  out_of_world (move_bullet (tick_dt 3000 0) b1) = false.
Proof.
  unfold out_of_world, b1, tick_dt. cbn. rewrite cos_0, sin_0.
  unfold spawn_coord, WORLD_WIDTH, WORLD_HEIGHT, PLAYER_RADIUS, BULLET_RADIUS,
    BULLET_SPEED.
  real_cmp. reflexivity.
Qed.

Lemma b1_not_terminal ps :
  (forall p, In p ps -> Player.id p = "a") ->
  terminal 3000 ps (move_bullet (tick_dt 3000 0) b1) = false.
Proof.
  intros Hps. unfold terminal. rewrite b1_in_world.
  replace (expired 3000 (move_bullet (tick_dt 3000 0) b1)) with false
    by reflexivity.
  simpl. apply not_true_iff_false. intros H.
  apply existsb_exists in H as (p & Hin & Ht).
  unfold target in Ht. rewrite (Hps p Hin) in Ht. simpl in Ht.
  rewrite andb_false_r in Ht. discriminate.
Qed.

Lemma shot_fired_reachable : reachable shot_fired.
Proof. apply after_input_reachable. exact lobby_reachable. Qed.

Lemma held_reachable : reachable held.
Proof. apply after_input_reachable. exact lobby_reachable. Qed.

Lemma move_player_rest dt p :
  idle (Player.input p) -> Input.mouseAngle (Player.input p) = 0%R ->
  Player.vx p = 0%R -> Player.vy p = 0%R -> in_world p ->
  move_player dt p = p.
Proof.
  intros Hidle Hm Hvx Hvy [Hx Hy].
  destruct (idle_direction _ Hidle) as [Hdx Hdy].
  unfold move_player. rewrite Hdx, Hdy, norm_len_idle, Hm.
  replace (0 / 1 * PLAYER_SPEED)%R with 0%R by (unfold PLAYER_SPEED; lra).
  replace (Player.x p + 0 * dt)%R with (Player.x p) by lra.
  replace (Player.y p + 0 * dt)%R with (Player.y p) by lra.
  rewrite !clamp_inside by assumption.
  destruct (Req_dec_T 0 0); [|contradiction].
  destruct p; simpl in *. subst. reflexivity.
Qed.

Lemma gunner_rest dt t : move_player dt (gunner t) = gunner t.
Proof.
  apply move_player_rest; try reflexivity; [repeat split|].
  apply (new_player_ok "a" 0 0 unit_zero unit_zero).
Qed.

Lemma unit_9_100 : unit_interval (9/100).
Proof. unfold unit_interval. lra. Qed.

Lemma victim_rest dt h : move_player dt (victim h) = victim h.
Proof.
  apply move_player_rest; try reflexivity; [repeat split|].
  apply (new_player_ok "b" (9/100) 0 unit_9_100 unit_zero).
Qed.

Lemma volley_hits t t0 h next last :
  SHOOT_COOLDOWN <= t - t0 -> 100 <= t - last ->
  volley t (duel t0 next last (victim h))
  = duel t (next + 1) t (hit t (victim h)).
Proof.
  intros Hc Hl. unfold volley, after_input, duel, shoot_msg.
  rewrite (on_input_defined "a" _ t _ (gunner t0)) by reflexivity.
  cbn [prop_of Js.get Js.assoc String.eqb Ascii.eqb Bool.eqb Js.truthy andb].
  unfold may_shoot.
  cbn [gunner with_lastShot Player.lastShot Player.alive new_player].
  apply Z.leb_le in Hc. rewrite Hc. cbn [andb].
  unfold tick. cbn [lastTick players bullets nextBulletId].
  unfold tick_dt. rewrite Z.min_l by exact Hl.
  set (dt := (100 / 1000)%R).
  change (modify String.eqb Player.id "a" _ [gunner t0; victim h])
    with [gunner t; victim h].
  change (update_players t dt no_random 0 [gunner t; victim h])
    with [move_player dt (gunner t); move_player dt (victim h)].
  rewrite gunner_rest, victim_rest.
  cbn [assign update_bullets].
  set (b := new_bullet next "a" t _).
  assert (Hstep : step_bullet t dt [gunner t; victim h] b
                  = ([gunner t; hit t (victim h)], None)).
  { unfold step_bullet.
    replace (expired t (move_bullet dt b)) with false
      by (unfold expired; cbn; rewrite Z.sub_diag; reflexivity).
    assert (Hx : Bullet.x (move_bullet dt b) = 182%R).
    { subst b dt. cbn. rewrite cos_0.
      unfold spawn_coord, WORLD_WIDTH, PLAYER_RADIUS, BULLET_RADIUS,
        BULLET_SPEED. lra. }
    assert (Hy : Bullet.y (move_bullet dt b) = 100%R).
    { subst b dt. cbn. rewrite sin_0.
      unfold spawn_coord, WORLD_HEIGHT, PLAYER_RADIUS, BULLET_RADIUS,
        BULLET_SPEED. lra. }
    unfold out_of_world. rewrite Hx, Hy.
    unfold WORLD_WIDTH, WORLD_HEIGHT. real_cmp. cbn [orb].
    cbn [collide skipped gunner victim with_lastShot new_player Player.alive
           Player.id move_bullet Bullet.ownerId new_bullet b negb orb
           String.eqb Ascii.eqb Bool.eqb].
    assert (Hvx : Player.x (victim h) = 190%R)
      by (cbn; unfold spawn_coord, WORLD_WIDTH; lra).
    assert (Hvy : Player.y (victim h) = 100%R)
      by (cbn; unfold spawn_coord, WORLD_HEIGHT; lra).
    unfold overlaps. rewrite Hx, Hy, Hvx, Hvy.
    unfold PLAYER_RADIUS, BULLET_RADIUS. real_cmp. reflexivity. }
  rewrite Hstep. reflexivity.
Qed.

Lemma graveyard_duel : graveyard = duel 1600 5 1600 fallen.
Proof.
  unfold graveyard.
  change (on_connection "b" (9/100) 0 (on_connection "a" 0 0 (initial 900)))
    with (duel 0 1 900 (victim 100)).
  rewrite volley_hits by (unfold SHOOT_COOLDOWN; lia).
  change (hit 1000 (victim 100)) with (victim 75).
  rewrite volley_hits by (unfold SHOOT_COOLDOWN; lia).
  change (hit 1200 (victim 75)) with (victim 50).
  rewrite volley_hits by (unfold SHOOT_COOLDOWN; lia).
  change (hit 1400 (victim 50)) with (victim 25).
  rewrite volley_hits by (unfold SHOOT_COOLDOWN; lia).
  reflexivity.
Qed.

Lemma volley_reachable t w : reachable w -> reachable (volley t w).
Proof.
  intros Hw. apply reach_tick; [|exact no_random_unit].
  now apply after_input_reachable.
Qed.

Lemma graveyard_reachable : reachable graveyard.
Proof.
  do 4 apply volley_reachable.
  apply reach_connection; [|exact unit_9_100|exact unit_zero].
  apply reach_connection; [|exact unit_zero|exact unit_zero].
  constructor.
Qed.

(** ** Properties of the world state *)

(** C1, for a player that is alive.  A message whose [shoot] is truthy,
    handled less than [SHOOT_COOLDOWN] after the [lastShot] of its player,
    leaves the bullets and [lastShot] as they were; handled at or after it,
    for a player that is alive, it appends one bullet to the store, under a
    key no other bullet has, owned by that player and born now, and sets
    [lastShot] to now.  For a player that is not alive the bullets stay as they
    were whatever the time. *)
Theorem shoot_cooldown
    (w : World) (sid : string) (p : Player.t) (input : Js.value) (now : Z) :
  reachable w -> player_of sid w = Some p ->
  Js.truthy (prop_of input "shoot") = true ->
  exists w' p',
    on_input sid input now w = Some w'
    /\ player_of sid w' = Some p'
    /\ (now - Player.lastShot p < SHOOT_COOLDOWN ->
          bullets w' = bullets w /\ Player.lastShot p' = Player.lastShot p)
    /\ (SHOOT_COOLDOWN <= now - Player.lastShot p -> Player.alive p = true ->
          Player.lastShot p' = now
          /\ exists b,
               bullets w' = bullets w ++ [b]
               /\ ~ In (Bullet.id b) (bullet_ids (bullets w))
               /\ Bullet.ownerId b = sid
               /\ Bullet.born b = now)
    /\ (Player.alive p = false -> bullets w' = bullets w).
Proof.
  intros Hw Hp Hs.
  pose proof (truthy_prop_defined _ _ Hs) as Hn.
  apply reachable_ok in Hw as (_ & Hf & _).
  rewrite (on_input_defined sid input now w p Hp Hn). rewrite Hs. simpl.
  unfold may_shoot.
  destruct (SHOOT_COOLDOWN <=? now - Player.lastShot p) eqn:Ec;
    [apply Z.leb_le in Ec|apply Z.leb_gt in Ec]; simpl.
  - destruct (Player.alive p) eqn:Ea.
    + eexists. eexists. split; [reflexivity|]. split.
      * apply player_of_modified; [intros q; reflexivity|exact Hp].
      * simpl. split; [lia|]. split; [|discriminate].
        intros _ _. split; [reflexivity|].
        eexists. split; [now apply fresh_bullet_appended|].
        split; [now apply fresh_bullet_not_in|]. split; reflexivity.
    + eexists. eexists. split; [reflexivity|]. split.
      * apply player_of_modified; [intros q; reflexivity|exact Hp].
      * simpl. split; [lia|]. split; [discriminate|reflexivity].
  - eexists. eexists. split; [reflexivity|]. split.
    + apply player_of_modified; [intros q; reflexivity|exact Hp].
    + simpl. split; [intros _; split; reflexivity|]. split; [lia|reflexivity].
Qed.

(** C1 as stated fails for a player that is not alive.  After the four
    volleys "b" is dead and has never fired; its shoot request at the time 1700
    comes more than [SHOOT_COOLDOWN] after its [lastShot], and the handler
    returns with the bullets as they were. *)
Lemma dead_player_cannot_shoot :
  reachable graveyard
  /\ player_of "b" graveyard = Some fallen
  /\ Player.alive fallen = false
  /\ Js.truthy (prop_of shoot_msg "shoot") = true
  /\ SHOOT_COOLDOWN <= 1700 - Player.lastShot fallen
  /\ exists w', on_input "b" shoot_msg 1700 graveyard = Some w'
                /\ bullets w' = bullets graveyard.
Proof.
  split; [exact graveyard_reachable|].
  rewrite graveyard_duel.
  split; [reflexivity|]. split; [reflexivity|]. split; [reflexivity|].
  split; [discriminate|].
  eexists. split; reflexivity.
Qed.

(** A witness for C1: the first shot of "a" in [lobby]. *)
Lemma shoot_cooldown_witness :
  exists w' p',
    on_input "a" shoot_msg 1000 lobby = Some w'
    /\ player_of "a" w' = Some p'
    /\ Player.lastShot p' = 1000
    /\ List.length (bullets w') = 1%nat.
Proof.
  destruct (shoot_cooldown lobby "a" (new_player "a" (1/2) (1/2)) shoot_msg
              1000 lobby_reachable eq_refl eq_refl)
    as (w' & p' & H1 & H2 & _ & H3 & _).
  destruct H3 as (H3 & b & H4 & _); [discriminate|reflexivity|].
  exists w', p'. repeat split; try assumption.
  rewrite H4. reflexivity.
Defined.

(** C2, as the handler stages.  For a message that is neither [undefined]
    nor [null] and a session that has a player, the handler returns and: each
    of the four direction flags becomes the truthiness of its field, so a
    field that is absent or falsy clears the flag; the aim is set by a
    [mouseAngle] field that is a number and is left as it was by a field that
    is absent or not a number; and when the [shoot] field is not truthy the
    bullets and [lastShot] are left as they were. *)
Theorem input_staging
    (w : World) (sid : string) (p : Player.t) (input : Js.value) (now : Z) :
  player_of sid w = Some p -> Js.nullish input = false ->
  exists w' p',
    on_input sid input now w = Some w'
    /\ player_of sid w' = Some p'
    /\ Input.up (Player.input p') = Js.truthy (prop_of input "up")
    /\ Input.down (Player.input p') = Js.truthy (prop_of input "down")
    /\ Input.left (Player.input p') = Js.truthy (prop_of input "left")
    /\ Input.right (Player.input p') = Js.truthy (prop_of input "right")
    /\ Input.mouseAngle (Player.input p')
       = match prop_of input "mouseAngle" with
         | Js.Number n => n
         | _ => Input.mouseAngle (Player.input p)
         end
    /\ (Js.truthy (prop_of input "shoot") = false ->
          bullets w' = bullets w /\ Player.lastShot p' = Player.lastShot p).
Proof.
  intros Hp Hn.
  rewrite (on_input_defined sid input now w p Hp Hn).
  destruct (Js.truthy (prop_of input "shoot") && may_shoot now p) eqn:E.
  - eexists. eexists. split; [reflexivity|]. split.
    + apply player_of_modified; [intros q; reflexivity|exact Hp].
    + simpl. do 5 (split; [reflexivity|]).
      intros Hs. rewrite Hs in E. discriminate.
  - eexists. eexists. split; [reflexivity|]. split.
    + apply player_of_modified; [intros q; reflexivity|exact Hp].
    + simpl. repeat split; reflexivity.
Qed.

(** C2 as stated fails for the direction flags and for [shoot].  "a" has
    staged [up]; a message without an [up] field clears it.  A message whose
    [shoot] is the string "yes", not the boolean true, fires a bullet. *)
Lemma absent_field_clears_direction :
  reachable held
  /\ (exists p, player_of "a" held = Some p
                /\ Input.up (Player.input p) = true)
  /\ prop_of (Js.Object []) "up" = Js.Undefined
  /\ (exists w' p',
        on_input "a" (Js.Object []) 20 held = Some w'
        /\ player_of "a" w' = Some p'
        /\ Input.up (Player.input p') = false)
  /\ (exists w',
        on_input "a" (Js.Object [("shoot", Js.Str "yes")]) 1000 lobby = Some w'
        /\ bullets lobby = []
        /\ List.length (bullets w') = 1%nat).
Proof.
  split; [exact held_reachable|].
  split; [eexists; split; reflexivity|].
  split; [reflexivity|].
  split.
  - eexists. eexists. split; [reflexivity|]. split; reflexivity.
  - eexists. split; [reflexivity|]. split; reflexivity.
Qed.

(** A witness for C2: a message of "a" in [lobby] that holds left. *)
Lemma input_staging_witness :
  exists w' p',
    on_input "a" (Js.Object [("left", Js.Boolean true)]) 10 lobby = Some w'
    /\ player_of "a" w' = Some p'
    /\ Input.up (Player.input p') = false.
Proof.
  destruct (input_staging lobby "a" (new_player "a" (1/2) (1/2))
              (Js.Object [("left", Js.Boolean true)]) 10 eq_refl eq_refl)
    as (w' & p' & H1 & H2 & H3 & _).
  exists w', p'. repeat split; assumption.
Defined.

(** C3, with the age compared as the loop compares it.  Take a bullet [b]
    of a reachable world and a tick; [ps1] are the players as they are when
    the loop reaches [b] and [b'] is [b] moved by this tick.  If [b'] is older
    than the lifetime, or beyond the margin around the world, or on top of a
    player that is alive and not its owner, then after the tick no bullet of
    the store has the key of [b]; otherwise [b'] is in the store.  No key is
    in the store after a tick that was not there before it. *)
Theorem bullet_removed_when_terminal
    (now : Z) (rnd : nat -> R) (w : World)
    (l1 : list Bullet.t) (b : Bullet.t) (l2 : list Bullet.t) :
  reachable w -> bullets w = l1 ++ b :: l2 ->
  let dt := tick_dt now (lastTick w) in
  let ps1 :=
    fst (update_bullets now dt (update_players now dt rnd 0 (players w)) l1) in
  let b' := move_bullet dt b in
  (terminal now ps1 b' = true ->
     ~ In (Bullet.id b) (bullet_ids (bullets (tick now rnd w))))
  /\ (terminal now ps1 b' = false -> In b' (bullets (tick now rnd w)))
  /\ (forall n, In n (bullet_ids (bullets (tick now rnd w))) ->
                In n (bullet_ids (bullets w))).
Proof.
  intros Hw Hsplit dt ps1 b'.
  apply reachable_ok in Hw as (_ & _ & Hn).
  rewrite tick_bullets, Hsplit. fold dt.
  set (ps0 := update_players now dt rnd 0 (players w)) in *.
  rewrite update_bullets_app_snd. fold ps1.
  split; [|split].
  - intros Ht. rewrite update_bullets_cons. fold b'. rewrite Ht. simpl.
    rewrite Hsplit in Hn. unfold bullet_ids in Hn. rewrite map_app in Hn.
    simpl in Hn. apply NoDup_remove_2 in Hn.
    unfold bullet_ids at 1. rewrite map_app. intros Hin. apply Hn.
    apply in_app_or in Hin. apply in_or_app.
    destruct Hin as [Hin|Hin]; [left|right];
      eapply update_bullets_ids_incl; exact Hin.
  - intros Ht. rewrite update_bullets_cons. fold b'. rewrite Ht.
    apply in_or_app. right. simpl. now left.
  - intros n. unfold ps1. rewrite <- update_bullets_app_snd.
    apply update_bullets_ids_incl.
Qed.

(** C3 as stated fails at the age that equals the lifetime.  The bullet
    [b1] is born at 1000; at the tick of the time 3000 its age is
    [BULLET_LIFETIME] and it is inside the world, away from every player but
    its owner: it is moved and stays in the store. *)
Lemma bullet_survives_at_lifetime :
  reachable shot_fired
  /\ In b1 (bullets shot_fired)
  /\ BULLET_LIFETIME
     <= 3000 - Bullet.born (move_bullet (tick_dt 3000 (lastTick shot_fired)) b1)
  /\ In (move_bullet (tick_dt 3000 (lastTick shot_fired)) b1)
        (bullets (tick 3000 no_random shot_fired)).
Proof.
  split; [exact shot_fired_reachable|].
  split; [left; reflexivity|].
  split; [discriminate|].
  rewrite tick_bullets.
  change (bullets shot_fired) with [b1].
  rewrite update_bullets_cons.
  change (lastTick shot_fired) with 0.
  rewrite b1_not_terminal.
  - left. reflexivity.
  - cbn. intros p [<-|[]]. reflexivity.
Qed.

(** A witness for C3: one millisecond later [b1] is gone. *)
Lemma bullet_removed_when_terminal_witness :
  ~ In (Bullet.id b1) (bullet_ids (bullets (tick 3001 no_random shot_fired))).
Proof.
  refine (proj1 (bullet_removed_when_terminal 3001 no_random shot_fired
                   [] b1 [] shot_fired_reachable _) _).
  - reflexivity.
  - reflexivity.
Defined.

(** C4.  One run of the loop body for a bullet leaves the entry of the
    bullet's owner as it was, and either leaves every player as it was or
    applies one hit to one player, which was alive and is not the owner, and
    does not keep the bullet in the store; the bullets a tick leaves in the
    store are bullets it found there, so a bullet that has hit is never
    processed again. *)
Theorem bullet_damage (now : Z) (dt : R) (ps : list Player.t) (b : Bullet.t) :
  let ps' := fst (step_bullet now dt ps b) in
  let kept := snd (step_bullet now dt ps b) in
  lookup String.eqb Player.id (Bullet.ownerId b) ps'
  = lookup String.eqb Player.id (Bullet.ownerId b) ps
  /\ (ps' = ps
      \/ (kept = None
          /\ exists l1 p l2,
               ps = l1 ++ p :: l2
               /\ ps' = l1 ++ hit now p :: l2
               /\ Player.alive p = true
               /\ Player.id p <> Bullet.ownerId b))
  /\ (forall rnd w n,
        In n (bullet_ids (bullets (tick now rnd w))) ->
        In n (bullet_ids (bullets w))).
Proof.
  intros ps' kept.
  assert (Hstep : ps' = ps
      \/ (kept = None
          /\ exists l1 p l2,
               ps = l1 ++ p :: l2
               /\ ps' = l1 ++ hit now p :: l2
               /\ Player.alive p = true
               /\ Player.id p <> Bullet.ownerId b)).
  { subst ps' kept. unfold step_bullet.
    destruct (expired now (move_bullet dt b)); [now left|].
    destruct (out_of_world (move_bullet dt b)); [now left|].
    destruct (collide_spec now (move_bullet dt b) ps)
      as [[-> _]|(l1 & p & l2 & E & -> & _ & Ht)]; [now left|].
    right. simpl. split; [reflexivity|].
    exists l1, p, l2. unfold target in Ht.
    apply andb_prop in Ht as [Ht _]. apply andb_prop in Ht as [Ha Ho].
    repeat split; try assumption.
    apply negb_true_iff in Ho. intros Heq.
    apply String.eqb_eq in Heq. simpl in Ho. congruence. }
  split; [|split; [exact Hstep|]].
  - destruct Hstep as [->|(_ & l1 & p & l2 & -> & -> & _ & Hne)];
      [reflexivity|now apply lookup_owner_after_hit].
  - intros rnd w n. unfold tick.
    pose proof (update_bullets_ids_incl now (tick_dt now (lastTick w))
                  (bullets w)
                  (update_players now (tick_dt now (lastTick w)) rnd 0
                     (players w)) n) as H.
    destruct (update_bullets now (tick_dt now (lastTick w))
                (update_players now (tick_dt now (lastTick w)) rnd 0
                   (players w)) (bullets w)) as [ps2 bs2].
    exact H.
Qed.

(** C5.  In every reachable world a player that is alive has a health from
    0 to the maximum, and a player that is not alive has a health of at most
    0.  A hit leaves its target not alive exactly when the health it leaves is
    at most 0, and the player loop of a tick at which a dead player's respawn
    is due puts that player back alive with the maximum health. *)
Theorem health_invariant (w : World) (p : Player.t) :
  reachable w -> In p (players w) ->
  (Player.alive p = true -> 0 <= Player.health p <= PLAYER_MAX_HEALTH)
  /\ (Player.alive p = false -> Player.health p <= 0)
  /\ (forall now,
        Player.alive (hit now p) = false <-> Player.health (hit now p) <= 0)
  /\ (forall now dt rnd k,
        Player.alive p = false -> respawn_due now p = true ->
        exists q, In q (update_players now dt rnd k (players w))
                  /\ Player.id q = Player.id p
                  /\ Player.alive q = true
                  /\ Player.health q = PLAYER_MAX_HEALTH).
Proof.
  intros Hw Hin. apply reachable_ok in Hw as (Hp & _).
  rewrite Forall_forall in Hp. destruct (Hp p Hin) as [[Ha Hd] _].
  split; [intros H; specialize (Ha H); lia|].
  split; [exact Hd|]. split.
  - intros now. unfold hit; simpl.
    destruct (Player.health p - 25 <=? 0) eqn:E.
    + apply Z.leb_le in E. tauto.
    + apply Z.leb_gt in E. split; [|lia].
      intros Hdead. specialize (Hd Hdead). lia.
  - intros now dt rnd k Hdead Hdue.
    destruct (update_players_respawn now dt rnd (players w) p Hin Hdead Hdue k)
      as (rx & ry & H).
    exists (respawn rx ry p). repeat split. exact H.
Qed.

(** A witness for C5: the player of [lobby]. *)
Lemma health_invariant_witness :
  0 <= Player.health (new_player "a" (1/2) (1/2)) <= PLAYER_MAX_HEALTH.
Proof.
  apply (health_invariant lobby (new_player "a" (1/2) (1/2)) lobby_reachable).
  - left. reflexivity.
  - reflexivity.
Defined.

(** C6.  In every reachable world the position of a player that is alive
    lies in [radius, width - radius] x [radius, height - radius].  The spawn
    position, the position after the movement of a tick, whatever the position
    and the step before it, and the respawn position all lie there. *)
Theorem alive_player_in_world (w : World) (p : Player.t) :
  reachable w -> In p (players w) -> Player.alive p = true ->
  in_world p
  /\ (forall sid rx ry,
        unit_interval rx -> unit_interval ry -> in_world (new_player sid rx ry))
  /\ (forall dt q, in_world (move_player dt q))
  /\ (forall rx ry q,
        unit_interval rx -> unit_interval ry -> in_world (respawn rx ry q)).
Proof.
  intros Hw Hin _. apply reachable_ok in Hw as (Hp & _).
  rewrite Forall_forall in Hp. destruct (Hp p Hin) as [_ Hb].
  split; [exact Hb|]. split; [|split].
  - intros sid rx ry Hx Hy. now apply new_player_ok.
  - intros dt q. unfold in_world; simpl. split; apply clamp_bounds;
      unfold WORLD_WIDTH, WORLD_HEIGHT, PLAYER_RADIUS; lra.
  - intros rx ry q Hx Hy. now apply respawn_ok.
Qed.

(** A witness for C6: the player of [lobby]. *)
Lemma alive_player_in_world_witness :
  in_world (new_player "a" (1/2) (1/2)).
Proof.
  refine (proj1 (alive_player_in_world lobby (new_player "a" (1/2) (1/2))
                   lobby_reachable _ _)).
  - left. reflexivity.
  - reflexivity.
Defined.

(** What the tick does with the aim: [p.input.mouseAngle || p.angle]. *)
Lemma facing_angle_after_move dt p :
  Player.angle (move_player dt p)
  = if Req_dec_T (Input.mouseAngle (Player.input p)) 0%R then Player.angle p
    else Input.mouseAngle (Player.input p).
Proof. reflexivity. Qed.

(** C7 fails for the staged aim 0.  "a" stages the aim 1 and a tick turns
    it to the angle 1; "a" then stages the aim 0, and after the next tick its
    angle is still 1: [p.input.mouseAngle || p.angle] takes the staged 0 for
    no aim at all.  The shoot branch of the input handler reads the staged
    aim itself: a bullet "a" fires then leaves along the angle 0. *)
Lemma zero_aim_not_applied :
  reachable settled
  /\ (exists p, player_of "a" re_aimed = Some p
                /\ Input.mouseAngle (Player.input p) = 0%R
                /\ Player.angle p = 1%R)
  /\ (exists p, player_of "a" settled = Some p
                /\ Input.mouseAngle (Player.input p) = 0%R
                /\ Player.angle p = 1%R)
  /\ (exists w' b,
        on_input "a" shoot_msg 1000 settled = Some w'
        /\ bullets w' = [b]
        /\ Bullet.vx b = (cos 0 * BULLET_SPEED)%R
        /\ Bullet.vy b = (sin 0 * BULLET_SPEED)%R).
Proof.
  split; [exact settled_reachable|].
  assert (H1 : IZR 1 <> 0%R) by lra.
  split; [|split].
  - eexists. split; [reflexivity|]. split; [reflexivity|].
    cbn. destruct (Req_dec_T 1 0); [contradiction|reflexivity].
  - eexists. split; [reflexivity|]. split; [reflexivity|]. cbn.
    destruct (Req_dec_T 0 0); [|contradiction].
    destruct (Req_dec_T 1 0); [contradiction|reflexivity].
  - eexists. eexists. split; [reflexivity|]. repeat split.
Qed.

Section DiagonalSpeed.
Import QArith PrimFloat.
#[local] Open Scope Z_scope.

(** C8 as stated fails on binary64.  For the player that holds up and
    right both components of the velocity have the magnitude
    [Double.diagonal_component], and the length of the vector is, in exact
    arithmetic, below [PLAYER_SPEED]: its square is below 220 * 220. *)
Lemma diagonal_speed_rounds :
  Double.velocity (Player.input runner)
  = (Double.diagonal_component, (- Double.diagonal_component)%float)
  /\ exists q,
       Double.speed_sq (Player.input runner) = Some q
       /\ (q < 220 * 220)%Q.
Proof.
  split; [vm_compute; reflexivity|].
  eexists. split; [vm_compute; reflexivity|]. vm_compute. reflexivity.
Qed.

(** C8, up to rounding.  For a player with exactly one of up/down and
    exactly one of left/right staged, the direction is divided by its length,
    the binary64 square root of 2, before it is scaled by [PLAYER_SPEED]; both
    components of the velocity then have the magnitude
    [Double.diagonal_component], and the length of the velocity is, in exact
    arithmetic, below [PLAYER_SPEED] by less than 1e-13, far from
    [PLAYER_SPEED] times the square root of 2. *)
Theorem diagonal_speed_binary64 (p : Player.t) :
  let i := Player.input p in
  xorb (Input.up i) (Input.down i) = true ->
  xorb (Input.left i) (Input.right i) = true ->
  Double.norm_len (Double.dir (Input.left i) (Input.right i))
                  (Double.dir (Input.up i) (Input.down i))
  = 0x1.6a09e667f3bcdp+0%float
  /\ abs (fst (Double.velocity i)) = Double.diagonal_component
  /\ abs (snd (Double.velocity i)) = Double.diagonal_component
  /\ exists q,
       Double.speed_sq i = Some q
       /\ ((220 - (1 # 10000000000000)) * (220 - (1 # 10000000000000)) < q)%Q
       /\ (q < 220 * 220)%Q
       /\ (q < 2 * (220 * 220))%Q.
Proof.
  intros i. subst i. destruct p as [sid x y vx vy angle i h a ls ra].
  destruct i as [u d l r m s]. simpl.
  destruct u, d; try discriminate; destruct l, r; try discriminate;
    intros _ _;
    (split; [vm_compute; reflexivity|]);
    (split; [vm_compute; reflexivity|]);
    (split; [vm_compute; reflexivity|]);
    eexists; (split; [vm_compute; reflexivity|]);
    repeat split; vm_compute; reflexivity.
Qed.

(** A witness for C8: the player that holds up and right. *)
Lemma diagonal_speed_binary64_witness :
  abs (fst (Double.velocity (Player.input runner))) = Double.diagonal_component.
Proof.
  refine (proj1 (proj2 (diagonal_speed_binary64 runner _ _))); reflexivity.
Defined.
End DiagonalSpeed.

(** C9.  Disconnect is idempotent: [on_disconnect] removes the entry of the
    session and touches nothing else; a second disconnect, or a disconnect of
    a session that has no entry, returns the world it was given.  The handler
    is a total function: there is no error to raise. *)
Theorem disconnect_idempotent (sid : string) (w : World) :
  player_of sid (on_disconnect sid w) = None
  /\ (forall sid', sid <> sid' ->
        player_of sid' (on_disconnect sid w) = player_of sid' w)
  /\ bullets (on_disconnect sid w) = bullets w
  /\ on_disconnect sid (on_disconnect sid w) = on_disconnect sid w
  /\ (player_of sid w = None -> on_disconnect sid w = w).
Proof.
  assert (Habsent : forall v, player_of sid v = None -> on_disconnect sid v = v).
  { intros [ps bs n t] H. unfold on_disconnect, player_of in *. simpl in *.
    now rewrite (remove_absent String.eqb Player.id sid ps H). }
  assert (Hgone : player_of sid (on_disconnect sid w) = None).
  { apply (lookup_remove String.eqb Player.id). }
  repeat split.
  - exact Hgone.
  - intros sid' Hne.
    now apply (lookup_remove_other String.eqb Player.id string_eqb_spec).
  - now apply Habsent.
  - apply Habsent.
Qed.

(** A witness for C9: a session that never connected. *)
Lemma disconnect_idempotent_witness :
  on_disconnect "ghost" lobby = lobby.
Proof.
  apply (disconnect_idempotent "ghost" lobby). reflexivity.
Defined.

(** C10.  For a player of a reachable world that is alive and holds no
    direction key, the divisor of the normalisation is 1, not 0; the tick
    moves the player with [move_player], which assigns it the velocity (0, 0)
    and, the clamp included, leaves its position as it was. *)
Theorem idle_player_stays (w : World) (p : Player.t) (dt : R) :
  reachable w -> In p (players w) -> Player.alive p = true ->
  idle (Player.input p) ->
  norm_len (dir_x (Player.input p)) (dir_y (Player.input p)) = 1%R
  /\ (forall now rnd k,
        In (move_player dt p) (update_players now dt rnd k (players w)))
  /\ Player.vx (move_player dt p) = 0%R
  /\ Player.vy (move_player dt p) = 0%R
  /\ Player.x (move_player dt p) = Player.x p
  /\ Player.y (move_player dt p) = Player.y p.
Proof.
  intros Hw Hin Ha Hidle.
  apply reachable_ok in Hw as (Hp & _).
  rewrite Forall_forall in Hp. destruct (Hp p Hin) as [_ [Hx Hy]].
  destruct (idle_direction _ Hidle) as [Hdx Hdy].
  split; [rewrite Hdx, Hdy; exact norm_len_idle|].
  split; [intros now rnd k; now apply update_players_alive|].
  simpl. rewrite Hdx, Hdy, norm_len_idle.
  replace (0 / 1 * PLAYER_SPEED)%R with 0%R by (unfold PLAYER_SPEED; lra).
  replace (Player.x p + 0 * dt)%R with (Player.x p) by lra.
  replace (Player.y p + 0 * dt)%R with (Player.y p) by lra.
  rewrite !clamp_inside by assumption. repeat split.
Qed.

(** A witness for C10: the player of [lobby]. *)
Lemma idle_player_stays_witness :
  Player.x (move_player (1/60) (new_player "a" (1/2) (1/2)))
  = Player.x (new_player "a" (1/2) (1/2)).
Proof.
  refine (proj1 (proj2 (proj2 (proj2 (proj2
    (idle_player_stays lobby (new_player "a" (1/2) (1/2)) (1/60)
       lobby_reachable _ _ _)))))).
  - left. reflexivity.
  - reflexivity.
  - repeat split.
Defined.

(** * Further properties of the server *)

(** ** More on the object-as-map operations *)

Section ObjectAsMapMore.
Context {K V : Type} (eqb : K -> K -> bool) (key : V -> K).
Hypothesis eqb_spec : forall a b, eqb a b = true <-> a = b.

Lemma eqb_refl_key k : eqb k k = true.
Proof. now apply eqb_spec. Qed.

Lemma eqb_neq a b : a <> b -> eqb a b = false.
Proof.
  intros H. destruct (eqb a b) eqn:E; [|reflexivity].
  apply eqb_spec in E. contradiction.
Qed.

Lemma lookup_modify_other k k' f o :
  (forall v, key (f v) = key v) -> k <> k' ->
  lookup eqb key k' (modify eqb key k f o) = lookup eqb key k' o.
Proof.
  intros Hkey Hne. induction o as [|v o IH]; simpl; [reflexivity|].
  destruct (eqb k (key v)) eqn:E.
  - rewrite Hkey. apply eqb_spec in E. rewrite <- E.
    rewrite (eqb_neq k' k) by congruence. exact IH.
  - rewrite IH. reflexivity.
Qed.

Lemma lookup_assign v o : lookup eqb key (key v) (assign eqb key v o) = Some v.
Proof.
  induction o as [|v' o IH]; simpl.
  - now rewrite eqb_refl_key.
  - destruct (eqb (key v) (key v')) eqn:E; simpl.
    + now rewrite eqb_refl_key.
    + now rewrite E.
Qed.

Lemma lookup_assign_other k v o :
  k <> key v ->
  lookup eqb key k (assign eqb key v o) = lookup eqb key k o.
Proof.
  intros Hne. induction o as [|v' o IH]; simpl.
  - now rewrite (eqb_neq k (key v)).
  - destruct (eqb (key v) (key v')) eqn:E; simpl.
    + apply eqb_spec in E. rewrite <- E.
      now rewrite (eqb_neq k (key v)).
    + now rewrite IH.
Qed.

Lemma remove_assign_absent v o :
  lookup eqb key (key v) o = None ->
  remove eqb key (key v) (assign eqb key v o) = o.
Proof.
  induction o as [|v' o IH]; simpl; intros H.
  - now rewrite eqb_refl_key.
  - destruct (eqb (key v) (key v')) eqn:E; [discriminate|].
    simpl. rewrite E. simpl. now rewrite IH.
Qed.

Lemma assign_keys_present v o p :
  lookup eqb key (key v) o = Some p ->
  map key (assign eqb key v o) = map key o.
Proof.
  induction o as [|v' o IH]; simpl; intros H; [discriminate|].
  destruct (eqb (key v) (key v')) eqn:E; simpl.
  - apply eqb_spec in E. now rewrite E.
  - now rewrite IH.
Qed.

Lemma assign_keys_absent v o :
  lookup eqb key (key v) o = None ->
  map key (assign eqb key v o) = map key o ++ [key v].
Proof.
  induction o as [|v' o IH]; simpl; intros H; [reflexivity|].
  destruct (eqb (key v) (key v')) eqn:E; [discriminate|].
  simpl. now rewrite IH.
Qed.

Lemma lookup_None_keys k o :
  lookup eqb key k o = None -> ~ In k (map key o).
Proof.
  induction o as [|v o IH]; simpl; intros H; [tauto|].
  destruct (eqb k (key v)) eqn:E; [discriminate|].
  intros [Heq|Hin]; [|now apply IH].
  rewrite Heq, eqb_refl_key in E. discriminate.
Qed.

Lemma lookup_NoDup k o v :
  NoDup (map key o) -> In v o -> key v = k -> lookup eqb key k o = Some v.
Proof.
  induction o as [|v' o IH]; simpl; intros Hnd Hin Hk; [contradiction|].
  inversion Hnd as [|? ? Hnot Hrest]; subst.
  destruct Hin as [->|Hin].
  - now rewrite eqb_refl_key.
  - destruct (eqb (key v) (key v')) eqn:E.
    + apply eqb_spec in E. exfalso. apply Hnot. rewrite <- E.
      now apply in_map.
    + now apply IH.
Qed.

Lemma remove_keys_NoDup k o :
  NoDup (map key o) -> NoDup (map key (remove eqb key k o)).
Proof.
  induction o as [|v o IH]; simpl; intros H; [constructor|].
  inversion H as [|? ? Hnot Hrest]; subst.
  destruct (eqb k (key v)); simpl; [now apply IH|].
  constructor; [|now apply IH].
  intros Hin. apply Hnot. apply in_map_iff in Hin as (v' & E & Hin).
  apply filter_In in Hin as [Hin _]. rewrite <- E. now apply in_map.
Qed.

Lemma modify_keys k f o :
  (forall v, key (f v) = key v) ->
  map key (modify eqb key k f o) = map key o.
Proof.
  intros Hkey. induction o as [|v o IH]; simpl; [reflexivity|].
  rewrite IH. destruct (eqb k (key v)); [now rewrite Hkey|reflexivity].
Qed.
End ObjectAsMapMore.

(** ** Further properties of the handlers *)

Lemma map_modify_same {A : Type} (g : Player.t -> A) sid f ps :
  (forall q, g (f q) = g q) ->
  map g (modify String.eqb Player.id sid f ps) = map g ps.
Proof.
  intros Hg. induction ps as [|q ps IH]; simpl; [reflexivity|].
  rewrite IH. destruct (String.eqb sid (Player.id q)); [now rewrite Hg|reflexivity].
Qed.

(** The players of the world a message leaves, for a session that has a
    player: the staged entry, with [lastShot] set if the shot was fired. *)
Lemma on_input_players sid input now w w' :
  on_input sid input now w = Some w' ->
  players w' = players w
  \/ exists f,
       (forall q, view_player (f q) = view_player q)
       /\ (forall q, Player.id (f q) = Player.id q)
       /\ players w' = modify String.eqb Player.id sid f (players w).
Proof.
  intros H. destruct (player_of sid w) as [p|] eqn:Hp.
  - destruct (Js.nullish input) eqn:Hn.
    + rewrite (on_input_nullish sid input now w p Hp Hn) in H. discriminate.
    + rewrite (on_input_defined sid input now w p Hp Hn) in H.
      destruct (Js.truthy (prop_of input "shoot") && may_shoot now p);
        injection H as <-; right; eexists; (split; [|split; [|reflexivity]]);
        intros q; reflexivity.
  - unfold on_input in H. rewrite Hp in H. injection H as <-. now left.
Qed.

(** The bullets of the world a message leaves. *)
Lemma on_input_bullets sid input now w w' :
  reachable w -> on_input sid input now w = Some w' ->
  (bullets w' = bullets w /\ nextBulletId w' = nextBulletId w)
  \/ exists b,
       bullets w' = bullets w ++ [b]
       /\ Bullet.id b = nextBulletId w
       /\ Bullet.ownerId b = sid
       /\ nextBulletId w' = nextBulletId w + 1.
Proof.
  intros Hw H. apply reachable_ok in Hw as (_ & Hf & _).
  destruct (player_of sid w) as [p|] eqn:Hp.
  - destruct (Js.nullish input) eqn:Hn.
    + rewrite (on_input_nullish sid input now w p Hp Hn) in H. discriminate.
    + rewrite (on_input_defined sid input now w p Hp Hn) in H.
      destruct (Js.truthy (prop_of input "shoot") && may_shoot now p);
        injection H as <-; simpl.
      * right. eexists. split; [now apply fresh_bullet_appended|].
        repeat split.
      * left. split; reflexivity.
  - unfold on_input in H. rewrite Hp in H. injection H as <-.
    left. split; reflexivity.
Qed.

(** X1.  The input handler throws exactly when the session has a player
    and the message is [undefined] or [null]; in every other case it
    returns. *)
Theorem input_throws_iff
    (sid : string) (input : Js.value) (now : Z) (w : World) :
  on_input sid input now w = None
  <-> (exists p, player_of sid w = Some p) /\ Js.nullish input = true.
Proof.
  split.
  - intros H. destruct (player_of sid w) as [p|] eqn:Hp.
    + split; [eauto|]. destruct (Js.nullish input) eqn:Hn; [reflexivity|].
      rewrite (on_input_defined sid input now w p Hp Hn) in H.
      destruct (Js.truthy (prop_of input "shoot") && may_shoot now p);
        discriminate.
    + unfold on_input in H. rewrite Hp in H. discriminate.
  - intros [[p Hp] Hn]. now apply (on_input_nullish sid input now w p).
Qed.

(** X2.  Once a session has disconnected, whatever message arrives for it,
    [undefined] and [null] included, the handler returns and leaves the
    world as it is. *)
Theorem input_after_disconnect
    (sid : string) (input : Js.value) (now : Z) (w : World) :
  on_input sid input now (on_disconnect sid w) = Some (on_disconnect sid w).
Proof.
  unfold on_input.
  replace (player_of sid (on_disconnect sid w)) with (@None Player.t);
    [reflexivity|].
  symmetry. apply (lookup_remove String.eqb Player.id).
Qed.

(** X3.  A message that the handler accepts in a reachable world leaves
    [lastTick], the order of the sessions and the entry of every other
    session as they were; the bullets are as they were, or one bullet more at
    the end of the store, keyed by the counter, which then grows by one. *)
Theorem input_frame
    (sid : string) (input : Js.value) (now : Z) (w w' : World) :
  reachable w -> on_input sid input now w = Some w' ->
  lastTick w' = lastTick w
  /\ player_ids (players w') = player_ids (players w)
  /\ (forall sid', sid <> sid' -> player_of sid' w' = player_of sid' w)
  /\ ((bullets w' = bullets w /\ nextBulletId w' = nextBulletId w)
      \/ exists b,
           bullets w' = bullets w ++ [b]
           /\ Bullet.id b = nextBulletId w
           /\ Bullet.ownerId b = sid
           /\ nextBulletId w' = nextBulletId w + 1).
Proof.
  intros Hw H.
  split; [|split; [|split; [|exact (on_input_bullets sid input now w w' Hw H)]]].
  - destruct (player_of sid w) as [p|] eqn:Hp.
    + destruct (Js.nullish input) eqn:Hn.
      * rewrite (on_input_nullish sid input now w p Hp Hn) in H. discriminate.
      * rewrite (on_input_defined sid input now w p Hp Hn) in H.
        destruct (Js.truthy (prop_of input "shoot") && may_shoot now p);
          injection H as <-; reflexivity.
    + unfold on_input in H. rewrite Hp in H. injection H as <-. reflexivity.
  - destruct (on_input_players sid input now w w' H)
      as [->|(f & _ & Hf & ->)]; [reflexivity|].
    now apply (modify_keys String.eqb Player.id).
  - intros sid' Hne. unfold player_of.
    destruct (on_input_players sid input now w w' H)
      as [->|(f & _ & Hf & ->)]; [reflexivity|].
    now apply (lookup_modify_other String.eqb Player.id string_eqb_spec).
Qed.

(** A witness for X3: the first shot of "a" in [lobby]. *)
Lemma input_frame_witness :
  lastTick shot_fired = lastTick lobby
  /\ player_ids (players shot_fired) = player_ids (players lobby).
Proof.
  destruct (input_frame "a" shoot_msg 1000 lobby shot_fired lobby_reachable
              eq_refl) as (H1 & H2 & _).
  split; assumption.
Defined.

(** X4.  A connection stores the new player under its session: the session
    then finds it, every other session finds what it found before, and the
    bullets, the counter and [lastTick] are as they were. *)
Theorem connection_registers (sid : string) (rx ry : R) (w : World) :
  player_of sid (on_connection sid rx ry w) = Some (new_player sid rx ry)
  /\ (forall sid', sid' <> sid ->
        player_of sid' (on_connection sid rx ry w) = player_of sid' w)
  /\ bullets (on_connection sid rx ry w) = bullets w
  /\ nextBulletId (on_connection sid rx ry w) = nextBulletId w
  /\ lastTick (on_connection sid rx ry w) = lastTick w.
Proof.
  split; [|split; [|repeat split]].
  - apply (lookup_assign String.eqb Player.id string_eqb_spec
             (new_player sid rx ry)).
  - intros sid' Hne. unfold player_of. simpl.
    now apply (lookup_assign_other String.eqb Player.id string_eqb_spec).
Qed.

(** X5.  Connecting a session that has no player and disconnecting it gives
    back the world there was, entry for entry and in the same order. *)
Theorem connect_disconnect_round_trip
    (sid : string) (rx ry : R) (w : World) :
  player_of sid w = None ->
  on_disconnect sid (on_connection sid rx ry w) = w.
Proof.
  intros H. destruct w as [ps bs n t]. unfold on_disconnect, on_connection.
  simpl. unfold player_of in H. simpl in H.
  pose proof (remove_assign_absent String.eqb Player.id string_eqb_spec
                (new_player sid rx ry) ps H) as E.
  simpl in E. now rewrite E.
Qed.

(** A witness for X5: "b" comes to [lobby] and leaves. *)
Lemma connect_disconnect_round_trip_witness :
  on_disconnect "b" (on_connection "b" (9/100) 0 lobby) = lobby.
Proof.
  apply (connect_disconnect_round_trip "b" (9/100) 0 lobby). reflexivity.
Defined.

(** X6.  A message that the handler accepts changes nothing of what a
    snapshot shows of the players: identifier, position, angle, health and
    alive flag of every player, in the same order.  When its [shoot] field is
    not truthy the whole snapshot is as it was. *)
Theorem input_invisible_in_snapshot
    (sid : string) (input : Js.value) (now t : Z) (w w' : World) :
  on_input sid input now w = Some w' ->
  Snapshot.players (snapshot t w') = Snapshot.players (snapshot t w)
  /\ (Js.truthy (prop_of input "shoot") = false ->
        snapshot t w' = snapshot t w).
Proof.
  intros H. split.
  - simpl. destruct (on_input_players sid input now w w' H)
      as [->|(f & Hv & _ & ->)]; [reflexivity|].
    now apply map_modify_same.
  - intros Hs. destruct (player_of sid w) as [p|] eqn:Hp.
    + destruct (Js.nullish input) eqn:Hn.
      * rewrite (on_input_nullish sid input now w p Hp Hn) in H. discriminate.
      * rewrite (on_input_defined sid input now w p Hp Hn), Hs in H.
        simpl in H. injection H as <-. unfold snapshot. simpl.
        f_equal. apply map_modify_same. intros q. reflexivity.
    + unfold on_input in H. rewrite Hp in H. injection H as <-. reflexivity.
Qed.

(** A witness for X6: "a" stages the up key in [lobby]. *)
Lemma input_invisible_in_snapshot_witness :
  Snapshot.players (snapshot 50 held) = Snapshot.players (snapshot 50 lobby).
Proof.
  apply (input_invisible_in_snapshot "a"
           (Js.Object [("up", Js.Boolean true)]) 10 50 lobby held).
  reflexivity.
Defined.

(** ** Invariants of the reachable worlds, in general *)

Lemma tick_players now rnd w :
  players (tick now rnd w)
  = fst (update_bullets now (tick_dt now (lastTick w))
           (update_players now (tick_dt now (lastTick w)) rnd 0 (players w))
           (bullets w)).
Proof.
  unfold tick.
  destruct (update_bullets now (tick_dt now (lastTick w))
              (update_players now (tick_dt now (lastTick w)) rnd 0 (players w))
              (bullets w)) as [ps bs].
  reflexivity.
Qed.

Section PlayerInvariant.
Variable P : Player.t -> Prop.
Hypothesis P_new :
  forall sid rx ry, unit_interval rx -> unit_interval ry ->
                    P (new_player sid rx ry).
Hypothesis P_input : forall i p, P p -> P (with_input i p).
Hypothesis P_shot : forall t p, P p -> P (with_lastShot t p).
Hypothesis P_move : forall dt p, P p -> Player.alive p = true -> P (move_player dt p).
Hypothesis P_respawn :
  forall rx ry p, unit_interval rx -> unit_interval ry ->
                  P p -> Player.alive p = false -> P (respawn rx ry p).
Hypothesis P_hit : forall now p, P p -> Player.alive p = true -> P (hit now p).

Lemma update_players_Forall now dt rnd ps :
  (forall k, unit_interval (rnd k)) -> Forall P ps ->
  forall k, Forall P (update_players now dt rnd k ps).
Proof.
  intros Hr. induction 1 as [|p ps Hp Hps IH]; intros k; simpl; [constructor|].
  destruct (Player.alive p) eqn:Ea; simpl.
  - constructor; [now apply P_move|apply IH].
  - destruct (respawn_due now p); constructor; auto.
Qed.

Lemma collide_Forall now b ps :
  Forall P ps -> Forall P (fst (collide now b ps)).
Proof.
  induction 1 as [|p ps Hp Hps IH]; simpl; [constructor|].
  destruct (skipped b p) eqn:Es.
  - destruct (collide now b ps) as [rest' h]; simpl in *. auto.
  - destruct (overlaps b p); simpl.
    + constructor; [|exact Hps]. apply P_hit; [exact Hp|].
      unfold skipped in Es. apply orb_false_elim in Es as [Es _].
      now apply negb_false_iff in Es.
    + destruct (collide now b ps) as [rest' h]; simpl in *. auto.
Qed.

Lemma update_bullets_Forall now dt bs :
  forall ps, Forall P ps -> Forall P (fst (update_bullets now dt ps bs)).
Proof.
  induction bs as [|b bs IH]; intros ps H; simpl; [exact H|].
  assert (Hs : Forall P (fst (step_bullet now dt ps b))).
  { unfold step_bullet.
    destruct (expired now (move_bullet dt b)); [exact H|].
    destruct (out_of_world (move_bullet dt b)); [exact H|].
    pose proof (collide_Forall now (move_bullet dt b) ps H) as Hc.
    destruct (collide now (move_bullet dt b) ps) as [ps' h]. exact Hc. }
  destruct (step_bullet now dt ps b) as [ps' kept]. simpl in Hs.
  specialize (IH ps' Hs).
  destruct (update_bullets now dt ps' bs) as [ps'' rest']. exact IH.
Qed.

Lemma reachable_players_Forall w : reachable w -> Forall P (players w).
Proof.
  induction 1 as [t0|sid rx ry w Hw IH Hx Hy|sid input now w w' Hw IH Hi
                 |sid w Hw IH|now rnd w Hw IH Hr].
  - constructor.
  - simpl. apply assign_Forall; auto.
  - destruct (player_of sid w) as [p|] eqn:Hp.
    + destruct (Js.nullish input) eqn:Hn.
      * rewrite (on_input_nullish sid input now w p Hp Hn) in Hi. discriminate.
      * rewrite (on_input_defined sid input now w p Hp Hn) in Hi.
        destruct (Js.truthy (prop_of input "shoot") && may_shoot now p);
          injection Hi as <-; simpl in *; apply modify_Forall; auto.
    + unfold on_input in Hi. rewrite Hp in Hi. injection Hi as <-. exact IH.
  - simpl. now apply remove_Forall.
  - rewrite tick_players. apply update_bullets_Forall.
    now apply update_players_Forall.
Qed.
End PlayerInvariant.

Section BulletInvariant.
Variable Q : Bullet.t -> Prop.
Hypothesis Q_move : forall dt b, Q b -> Q (move_bullet dt b).

Lemma update_bullets_kept_Forall now dt bs :
  forall ps, Forall Q bs -> Forall Q (snd (update_bullets now dt ps bs)).
Proof.
  induction bs as [|b bs IH]; intros ps H; simpl; [constructor|].
  inversion H as [|? ? Hb Hbs]; subst.
  pose proof (step_bullet_kept now dt ps b) as Hk.
  destruct (step_bullet now dt ps b) as [ps' kept]. simpl in Hk.
  specialize (IH ps' Hbs).
  destruct (update_bullets now dt ps' bs) as [ps'' rest']. simpl in *.
  destruct kept as [b'|]; [|exact IH].
  constructor; [|exact IH]. rewrite (Hk b' eq_refl). now apply Q_move.
Qed.

End BulletInvariant.

(** ** The sessions through a tick *)

Lemma update_players_ids now dt rnd ps :
  forall k, player_ids (update_players now dt rnd k ps) = player_ids ps.
Proof.
  induction ps as [|p ps IH]; intros k; simpl; [reflexivity|].
  destruct (Player.alive p); simpl; [now rewrite IH|].
  destruct (respawn_due now p); simpl; now rewrite IH.
Qed.

Lemma collide_ids now b ps :
  player_ids (fst (collide now b ps)) = player_ids ps.
Proof.
  induction ps as [|p ps IH]; simpl; [reflexivity|].
  destruct (skipped b p).
  - destruct (collide now b ps) as [rest' h]. simpl in *. now rewrite IH.
  - destruct (overlaps b p); [reflexivity|].
    destruct (collide now b ps) as [rest' h]. simpl in *. now rewrite IH.
Qed.

Lemma step_bullet_ids now dt ps b :
  player_ids (fst (step_bullet now dt ps b)) = player_ids ps.
Proof.
  unfold step_bullet.
  destruct (expired now (move_bullet dt b)); [reflexivity|].
  destruct (out_of_world (move_bullet dt b)); [reflexivity|].
  pose proof (collide_ids now (move_bullet dt b) ps) as H.
  destruct (collide now (move_bullet dt b) ps) as [ps' h]. exact H.
Qed.

Lemma update_bullets_ids now dt bs :
  forall ps, player_ids (fst (update_bullets now dt ps bs)) = player_ids ps.
Proof.
  induction bs as [|b bs IH]; intros ps; simpl; [reflexivity|].
  pose proof (step_bullet_ids now dt ps b) as Hs.
  destruct (step_bullet now dt ps b) as [ps' kept]. simpl in Hs.
  specialize (IH ps').
  destruct (update_bullets now dt ps' bs) as [ps'' rest']. simpl in *.
  congruence.
Qed.

Lemma tick_player_ids now rnd w :
  player_ids (players (tick now rnd w)) = player_ids (players w).
Proof.
  rewrite tick_players, update_bullets_ids. apply update_players_ids.
Qed.

Lemma reachable_sessions_NoDup w : reachable w -> NoDup (player_ids (players w)).
Proof.
  induction 1 as [t0|sid rx ry w Hw IH Hx Hy|sid input now w w' Hw IH Hi
                 |sid w Hw IH|now rnd w Hw IH Hr].
  - constructor.
  - simpl. unfold player_ids.
    destruct (lookup String.eqb Player.id sid (players w)) as [p|] eqn:Hp.
    + rewrite (assign_keys_present String.eqb Player.id string_eqb_spec
                 (new_player sid rx ry) (players w) p Hp). exact IH.
    + rewrite (assign_keys_absent String.eqb Player.id
                 (new_player sid rx ry) (players w) Hp).
      apply NoDup_app; [exact IH|constructor; [intros []|constructor]|].
      intros k Hin [<-|[]]. revert Hin. simpl.
      now apply (lookup_None_keys String.eqb Player.id string_eqb_spec).
  - destruct (on_input_players sid input now w w' Hi)
      as [->|(f & _ & Hf & ->)]; [exact IH|].
    unfold player_ids. now rewrite (modify_keys String.eqb Player.id).
  - simpl. now apply (remove_keys_NoDup String.eqb Player.id).
  - now rewrite tick_player_ids.
Qed.

Lemma StronglySorted_snoc l n :
  StronglySorted Z.lt l -> Forall (fun m => m < n) l ->
  StronglySorted Z.lt (l ++ [n]).
Proof.
  induction 1 as [|m l Hl IH Hm]; intros Hn; simpl.
  - constructor; constructor.
  - inversion Hn as [|? ? Hmn Hrest]; subst.
    constructor; [now apply IH|].
    apply Forall_app. split; [exact Hm|]. constructor; [exact Hmn|constructor].
Qed.

Lemma update_bullets_ids_sorted now dt bs :
  forall ps, StronglySorted Z.lt (bullet_ids bs) ->
  StronglySorted Z.lt (bullet_ids (snd (update_bullets now dt ps bs))).
Proof.
  induction bs as [|b bs IH]; intros ps H; simpl; [constructor|].
  simpl in H. inversion H as [|? ? Hrest Hlt]; subst.
  pose proof (step_bullet_kept now dt ps b) as Hk.
  destruct (step_bullet now dt ps b) as [ps' kept]. simpl in Hk.
  specialize (IH ps' Hrest).
  pose proof (update_bullets_ids_incl now dt bs ps') as Hincl.
  destruct (update_bullets now dt ps' bs) as [ps'' rest']. simpl in *.
  destruct kept as [b'|]; simpl; [|exact IH].
  rewrite (Hk b' eq_refl). simpl. constructor; [exact IH|].
  rewrite Forall_forall in *. intros n Hin. apply Hlt. now apply Hincl.
Qed.

Lemma reachable_bullet_ids_sorted w :
  reachable w -> StronglySorted Z.lt (bullet_ids (bullets w)).
Proof.
  induction 1 as [t0|sid rx ry w Hw IH Hx Hy|sid input now w w' Hw IH Hi
                 |sid w Hw IH|now rnd w Hw IH Hr].
  - constructor.
  - exact IH.
  - destruct (on_input_bullets sid input now w w' Hw Hi)
      as [[-> _]|(b & -> & Hb & _)]; [exact IH|].
    unfold bullet_ids. rewrite map_app. simpl.
    apply StronglySorted_snoc; [exact IH|].
    destruct (reachable_ok w Hw) as (_ & Hf & _).
    rewrite Hb. rewrite Forall_forall in *. intros n Hin.
    apply in_bullet_ids in Hin as (b0 & Hin & <-). now apply Hf.
  - exact IH.
  - rewrite tick_bullets. now apply update_bullets_ids_sorted.
Qed.

Lemma tick_counter now rnd w :
  nextBulletId (tick now rnd w) = nextBulletId w /\ lastTick (tick now rnd w) = now.
Proof.
  unfold tick.
  destruct (update_bullets now (tick_dt now (lastTick w))
              (update_players now (tick_dt now (lastTick w)) rnd 0 (players w))
              (bullets w)) as [ps bs].
  split; reflexivity.
Qed.

Lemma reachable_counter w :
  reachable w ->
  1 <= nextBulletId w /\ Forall (fun b => 1 <= Bullet.id b) (bullets w).
Proof.
  induction 1 as [t0|sid rx ry w Hw IH Hx Hy|sid input now w w' Hw IH Hi
                 |sid w Hw IH|now rnd w Hw IH Hr].
  - split; [simpl; lia|constructor].
  - exact IH.
  - destruct IH as [Hn Hb].
    destruct (on_input_bullets sid input now w w' Hw Hi)
      as [[-> ->]|(b & -> & Hid & _ & ->)]; [now split|].
    split; [lia|]. apply Forall_app. split; [exact Hb|].
    constructor; [lia|constructor].
  - exact IH.
  - destruct IH as [Hn Hb].
    split; [now rewrite (proj1 (tick_counter now rnd w))|].
    rewrite tick_bullets.
    apply (update_bullets_kept_Forall (fun b => 1 <= Bullet.id b));
      [intros dt b Hq; exact Hq|exact Hb].
Qed.

(** ** Further properties of the stores *)

(** X7.  In every reachable world no two players have the same session
    identifier and every stored player is found under its own: a snapshot
    lists each session once, and each bullet once. *)
Theorem sessions_distinct (w : World) (t : Z) :
  reachable w ->
  NoDup (map PlayerView.id (Snapshot.players (snapshot t w)))
  /\ NoDup (map BulletView.id (Snapshot.bullets (snapshot t w)))
  /\ (forall p, In p (players w) -> player_of (Player.id p) w = Some p).
Proof.
  intros Hw. pose proof (reachable_sessions_NoDup w Hw) as Hnd.
  destruct (reachable_ok w Hw) as (_ & _ & Hb).
  simpl. rewrite !map_map. simpl. split; [exact Hnd|]. split; [exact Hb|].
  intros p Hin.
  now apply (lookup_NoDup String.eqb Player.id string_eqb_spec).
Qed.

(** A witness for X7: the dead player of the duel. *)
Lemma sessions_distinct_witness :
  player_of "b" graveyard = Some fallen.
Proof.
  rewrite graveyard_duel.
  refine (proj2 (proj2 (sessions_distinct (duel 1600 5 1600 fallen) 0 _))
            fallen _).
  - rewrite <- graveyard_duel. exact graveyard_reachable.
  - right. left. reflexivity.
Defined.

(** X8.  In every reachable world the bullet keys ascend along the store,
    so ascending keys and insertion order agree, and each key is at least 1
    and below the counter: a key is never drawn twice. *)
Theorem bullet_keys_ascending (w : World) :
  reachable w ->
  StronglySorted Z.lt (bullet_ids (bullets w))
  /\ Forall (fun n => 1 <= n < nextBulletId w) (bullet_ids (bullets w)).
Proof.
  intros Hw. split; [now apply reachable_bullet_ids_sorted|].
  destruct (reachable_ok w Hw) as (_ & Hf & _).
  destruct (reachable_counter w Hw) as (_ & Hl).
  unfold bullet_ids. rewrite Forall_map.
  rewrite Forall_forall in *. intros b Hb. split; auto.
Qed.

(** A witness for X8: the store after the first shot. *)
Lemma bullet_keys_ascending_witness :
  Forall (fun n => 1 <= n < nextBulletId shot_fired)
    (bullet_ids (bullets shot_fired)).
Proof.
  exact (proj2 (bullet_keys_ascending shot_fired shot_fired_reachable)).
Defined.

(** X9.  A tick neither adds nor removes nor reorders players, leaves the
    bullet counter as it was, and records its own time in [lastTick]. *)
Theorem tick_keeps_sessions (now : Z) (rnd : nat -> R) (w : World) :
  player_ids (players (tick now rnd w)) = player_ids (players w)
  /\ nextBulletId (tick now rnd w) = nextBulletId w
  /\ lastTick (tick now rnd w) = now.
Proof.
  split; [apply tick_player_ids|apply tick_counter].
Qed.

(** ** The movement arithmetic on binary64: facts *)

Lemma nat_table (P : nat -> bool) (N : nat) :
  forallb P (seq 0 (S N)) = true ->
  forall n, (n <= N)%nat -> P n = true.
Proof.
  intros H n Hn. rewrite forallb_forall in H. apply H.
  apply in_seq. lia.
Qed.

Section MovementOnBinary64.
Import QArith PrimFloat.
#[local] Open Scope Z_scope.

(** X11.  On binary64 the velocity a tick assigns is never longer than
    [PLAYER_SPEED]: it is (0, 0) when the staged keys cancel (up with down and
    left with right, none held included), its length is exactly
    [PLAYER_SPEED] when the keys of one axis only do not cancel, and it is
    below [PLAYER_SPEED] on the diagonals. *)
Theorem speed_at_most_full (i : Input.t) :
  let vertical := xorb (Input.up i) (Input.down i) in
  let horizontal := xorb (Input.left i) (Input.right i) in
  exists q,
    Double.speed_sq i = Some q
    /\ (q <= 220 * 220)%Q
    /\ (vertical || horizontal = false -> Double.velocity i = (0, 0)%float)
    /\ (xorb vertical horizontal = true -> (q == 220 * 220)%Q)
    /\ (vertical && horizontal = true -> (q < 220 * 220)%Q).
Proof.
  destruct i as [u d l r m s]. simpl.
  destruct u, d, l, r; simpl;
    eexists; (split; [vm_compute; reflexivity|]);
    (split; [vm_compute; intros H; discriminate|]);
    (split; [intros H; try discriminate; vm_compute; reflexivity|]);
    (split; intros H; try discriminate; vm_compute; reflexivity).
Qed.

(** A witness for X11: up and down held together. *)
Lemma speed_at_most_full_witness :
  Double.velocity (Input.mk true true false false 0 false) = (0, 0)%float.
Proof.
  destruct (speed_at_most_full (Input.mk true true false false 0 false))
    as (q & _ & _ & H & _).
  apply H. reflexivity.
Defined.

Lemma step_table u d l r n : (n <= 100)%nat -> Double.step_within u d l r n = true.
Proof.
  intros Hn. revert n Hn.
  destruct u, d, l, r;
    apply (nat_table _ 100); vm_compute; reflexivity.
Qed.

(** X10.  On binary64 the increment a tick adds to each coordinate of a
    player is at most 22 in absolute value, whatever keys are staged and
    however long ago the last tick was, provided the clock has not gone
    backwards: the elapsed time is capped at 100 ms. *)
Theorem step_bounded (i : Input.t) (now last : Z) :
  last <= now ->
  (abs (fst (Double.step i now last)) <=? 22)%float = true
  /\ (abs (snd (Double.step i now last)) <=? 22)%float = true.
Proof.
  intros Hclock.
  set (k := Z.min 100 (now - last)).
  assert (Hk : 0 <= k <= 100) by (unfold k; lia).
  pose proof (step_table (Input.up i) (Input.down i) (Input.left i)
                (Input.right i) (Z.to_nat k) ltac:(lia)) as H.
  unfold Double.step_within, Double.step, Double.tick_dt in *.
  rewrite Z2Nat.id in H by lia.
  replace (Z.min 100 (k - 0)) with k in H by lia. fold k.
  destruct i as [u d l r m s]. simpl in *.
  change (Double.velocity (Input.mk u d l r m s))
    with (Double.velocity (Input.mk u d l r 0 false)).
  destruct (Double.velocity (Input.mk u d l r 0 false)) as [vx vy].
  simpl. now apply andb_prop in H.
Qed.

(** A witness for X10: a tick five seconds after the last one. *)
Lemma step_bounded_witness :
  (abs (fst (Double.step (Player.input runner) 5000 0)) <=? 22)%float = true.
Proof.
  refine (proj1 (step_bounded (Player.input runner) 5000 0 _)). lia.
Defined.
End MovementOnBinary64.

(** ** Health *)

Lemma reachable_vital w : reachable w -> Forall vital (players w).
Proof.
  apply reachable_players_Forall.
  - intros sid rx ry _ _. unfold vital. simpl. unfold PLAYER_MAX_HEALTH.
    split; [exists 4; reflexivity|]. split; [lia|]. split; [|reflexivity].
    split; [lia|reflexivity].
  - intros i p H. exact H.
  - intros t p H. exact H.
  - intros dt p H _. exact H.
  - intros rx ry p _ _ _ _. unfold vital. simpl. unfold PLAYER_MAX_HEALTH.
    split; [exists 4; reflexivity|]. split; [lia|]. split; [|reflexivity].
    split; [lia|reflexivity].
  - intros now p ([n Hn] & Hr & Ha & Hd) Halive.
    pose proof (proj1 Ha Halive) as Hpos.
    unfold vital, hit. cbn [Player.health Player.alive Player.respawnAt].
    unfold PLAYER_MAX_HEALTH in *.
    split; [exists (n - 1); lia|]. split; [lia|].
    destruct (Player.health p - 25 <=? 0) eqn:E;
      [apply Z.leb_le in E|apply Z.leb_gt in E].
    + split; [split; [discriminate|lia]|discriminate].
    + rewrite Halive. split; [split; [lia|reflexivity]|]. intros _. auto.
Qed.

(** X12.  In every reachable world the health of a player is 0, 25, 50, 75
    or 100; it is 0 exactly for the players that are not alive, so it never
    goes below 0; and a player that is alive has no respawn pending. *)
Theorem health_steps (w : World) (p : Player.t) :
  reachable w -> In p (players w) ->
  In (Player.health p) [0; 25; 50; 75; 100]
  /\ (Player.alive p = false <-> Player.health p = 0)
  /\ (Player.alive p = true -> Player.respawnAt p = 0).
Proof.
  intros Hw Hin. pose proof (reachable_vital w Hw) as H.
  rewrite Forall_forall in H.
  destruct (H p Hin) as ([n Hn] & Hr & Ha & Hd).
  unfold PLAYER_MAX_HEALTH in Hr.
  split; [|split; [|exact Hd]].
  - assert (Hc : n = 0 \/ n = 1 \/ n = 2 \/ n = 3 \/ n = 4) by lia.
    rewrite Hn. simpl.
    destruct Hc as [->|[->|[->|[->| ->]]]]; auto 6.
  - destruct (Player.alive p); split; intros H0.
    + discriminate.
    + pose proof (proj1 Ha eq_refl). lia.
    + destruct (Z.eq_dec (Player.health p) 0) as [E|E]; [exact E|].
      assert (Hpos : 0 < Player.health p) by lia.
      apply Ha in Hpos. discriminate.
    + reflexivity.
Qed.

(** A witness for X12: the dead player of the duel. *)
Lemma health_steps_witness :
  Player.alive fallen = false <-> Player.health fallen = 0.
Proof.
  refine (proj1 (proj2 (health_steps (duel 1600 5 1600 fallen) fallen _ _))).
  - rewrite <- graveyard_duel. exact graveyard_reachable.
  - right. left. reflexivity.
Defined.

(** ** Dead players and the tick *)

Lemma update_players_waiting now dt rnd sid p ps :
  lookup String.eqb Player.id sid ps = Some p ->
  Player.alive p = false -> respawn_due now p = false ->
  forall k,
  lookup String.eqb Player.id sid (update_players now dt rnd k ps) = Some p.
Proof.
  intros Hl Ha Hd. induction ps as [|q ps IH]; intros k; [discriminate|].
  simpl in Hl. simpl.
  destruct (String.eqb sid (Player.id q)) eqn:E.
  - injection Hl as ->. rewrite Ha, Hd. simpl. now rewrite E.
  - destruct (Player.alive q); simpl; [rewrite E; now apply IH|].
    destruct (respawn_due now q); simpl; rewrite E; now apply IH.
Qed.

Lemma collide_dead now b sid p ps :
  lookup String.eqb Player.id sid ps = Some p -> Player.alive p = false ->
  lookup String.eqb Player.id sid (fst (collide now b ps)) = Some p.
Proof.
  intros Hl Ha. induction ps as [|q ps IH]; [discriminate|].
  simpl in Hl. simpl.
  destruct (String.eqb sid (Player.id q)) eqn:E.
  - injection Hl as ->. unfold skipped. rewrite Ha. simpl.
    destruct (collide now b ps) as [rest' h]. simpl. now rewrite E.
  - specialize (IH Hl). destruct (skipped b q).
    + destruct (collide now b ps) as [rest' h]. simpl in *. now rewrite E.
    + destruct (overlaps b q); simpl; [now rewrite E|].
      destruct (collide now b ps) as [rest' h]. simpl in *. now rewrite E.
Qed.

Lemma update_bullets_dead now dt sid p bs :
  Player.alive p = false ->
  forall ps,
  lookup String.eqb Player.id sid ps = Some p ->
  lookup String.eqb Player.id sid (fst (update_bullets now dt ps bs)) = Some p.
Proof.
  intros Ha. induction bs as [|b bs IH]; intros ps Hl; simpl; [exact Hl|].
  assert (Hs : lookup String.eqb Player.id sid (fst (step_bullet now dt ps b))
               = Some p).
  { unfold step_bullet.
    destruct (expired now (move_bullet dt b)); [exact Hl|].
    destruct (out_of_world (move_bullet dt b)); [exact Hl|].
    pose proof (collide_dead now (move_bullet dt b) sid p ps Hl Ha) as Hc.
    destruct (collide now (move_bullet dt b) ps) as [ps' h]. exact Hc. }
  destruct (step_bullet now dt ps b) as [ps' kept]. simpl in Hs.
  specialize (IH ps' Hs).
  destruct (update_bullets now dt ps' bs) as [ps'' rest']. exact IH.
Qed.

(** X13.  A tick before the respawn deadline of a player that is not alive
    leaves that player exactly as it was: it is not moved, not turned, not
    hit and not respawned. *)
Theorem dead_player_waits
    (sid : string) (p : Player.t) (now : Z) (rnd : nat -> R) (w : World) :
  player_of sid w = Some p -> Player.alive p = false ->
  now < Player.respawnAt p ->
  player_of sid (tick now rnd w) = Some p.
Proof.
  intros Hl Ha Hnow. unfold player_of. rewrite tick_players.
  apply update_bullets_dead; [exact Ha|].
  apply update_players_waiting; [exact Hl|exact Ha|].
  unfold respawn_due. apply andb_false_intro2. apply Z.leb_gt. exact Hnow.
Qed.

(** A witness for X13: a tick one millisecond before the deadline. *)
Lemma dead_player_waits_witness :
  player_of "b" (tick 3599 no_random (duel 1600 5 1600 fallen)) = Some fallen.
Proof.
  apply (dead_player_waits "b" fallen 3599 no_random (duel 1600 5 1600 fallen));
    [reflexivity|reflexivity|reflexivity].
Defined.

(** ** The collision scan *)

(** X14.  The scan of the players for a bullet hits the first player in
    iteration order that is alive, is not the owner and overlaps the bullet,
    and leaves every other player as it was; with no such player it changes
    nothing and reports no hit. *)
Theorem first_target_is_hit
    (now : Z) (b : Bullet.t) (l1 : list Player.t) (p : Player.t)
    (l2 : list Player.t) :
  (existsb (target b) l1 = false -> target b p = true ->
   collide now b (l1 ++ p :: l2) = (l1 ++ hit now p :: l2, true))
  /\ (existsb (target b) l1 = false -> collide now b l1 = (l1, false)).
Proof.
  assert (Hnone : forall l, existsb (target b) l = false ->
                            collide now b l = (l, false)).
  { induction l as [|q l IH]; simpl; intros H; [reflexivity|].
    apply orb_false_elim in H as [Hq Hl]. rewrite target_skipped in Hq.
    rewrite (IH Hl).
    destruct (skipped b q); [reflexivity|]. simpl in Hq. now rewrite Hq. }
  split; [|apply Hnone].
  induction l1 as [|q l1 IH]; simpl; intros Hn Ht.
  - rewrite target_skipped in Ht. apply andb_prop in Ht as [Hs Ho].
    apply negb_true_iff in Hs. now rewrite Hs, Ho.
  - apply orb_false_elim in Hn as [Hq Hl]. rewrite target_skipped in Hq.
    rewrite (IH Hl Ht).
    destruct (skipped b q); [reflexivity|]. simpl in Hq. now rewrite Hq.
Qed.

Lemma shell_targets_victim h : target shell (victim h) = true.
Proof.
  unfold target, overlaps. simpl.
  unfold spawn_coord, WORLD_WIDTH, WORLD_HEIGHT, PLAYER_RADIUS, BULLET_RADIUS.
  rewrite Rleb_true by lra. reflexivity.
Qed.

(** A witness for X14: the scan passes the owner and hits the victim. *)
Lemma first_target_is_hit_witness :
  collide 1000 shell [gunner 1000; victim 100]
  = ([gunner 1000; hit 1000 (victim 100)], true).
Proof.
  apply (proj1 (first_target_is_hit 1000 shell [gunner 1000] (victim 100) [])).
  - reflexivity.
  - apply shell_targets_victim.
Defined.

Lemma update_players_due now dt rnd sid p ps :
  lookup String.eqb Player.id sid ps = Some p ->
  Player.alive p = false -> respawn_due now p = true ->
  forall k, exists k',
  lookup String.eqb Player.id sid (update_players now dt rnd k ps)
  = Some (respawn (rnd k') (rnd (S k')) p).
Proof.
  intros Hl Ha Hd. induction ps as [|q ps IH]; intros k; [discriminate|].
  simpl in Hl. simpl.
  destruct (String.eqb sid (Player.id q)) eqn:E.
  - injection Hl as ->. rewrite Ha, Hd. simpl. rewrite E. now exists k.
  - destruct (Player.alive q); simpl; [rewrite E; now apply IH|].
    destruct (respawn_due now q); simpl; rewrite E; now apply IH.
Qed.

(** X16.  At a tick at or after the respawn deadline of a player that is
    not alive, the player loop puts it back alive with the maximum health and
    no deadline, at a position at least 100 from every edge of the world, and
    does not move it from there in that tick; its staged input, its angle and
    its [lastShot] are as they were. *)
Theorem respawn_at_deadline
    (sid : string) (p : Player.t) (now : Z) (dt : R) (rnd : nat -> R)
    (ps : list Player.t) :
  (forall k, unit_interval (rnd k)) ->
  lookup String.eqb Player.id sid ps = Some p -> Player.alive p = false ->
  Player.respawnAt p <> 0 -> Player.respawnAt p <= now ->
  exists q,
    lookup String.eqb Player.id sid (update_players now dt rnd 0 ps) = Some q
    /\ Player.alive q = true
    /\ Player.health q = PLAYER_MAX_HEALTH
    /\ Player.respawnAt q = 0
    /\ (100 <= Player.x q < WORLD_WIDTH - 100)%R
    /\ (100 <= Player.y q < WORLD_HEIGHT - 100)%R
    /\ Player.input q = Player.input p
    /\ Player.angle q = Player.angle p
    /\ Player.lastShot q = Player.lastShot p.
Proof.
  intros Hr Hl Ha Hset Hnow.
  assert (Hd : respawn_due now p = true).
  { unfold respawn_due. apply andb_true_intro. split.
    - apply negb_true_iff. now apply Z.eqb_neq.
    - now apply Z.leb_le. }
  destruct (update_players_due now dt rnd sid p ps Hl Ha Hd 0%nat) as [k Hk].
  eexists. split; [exact Hk|]. simpl.
  pose proof (Hr k) as [Hx0 Hx1]. pose proof (Hr (S k)) as [Hy0 Hy1].
  unfold spawn_coord, WORLD_WIDTH, WORLD_HEIGHT.
  repeat split; try reflexivity; nra.
Qed.

(** A witness for X16: a tick at the deadline of the dead player. *)
Lemma respawn_at_deadline_witness :
  exists q,
    lookup String.eqb Player.id "b"
      (update_players 3600 (1/10) no_random 0 [gunner 1600; fallen]) = Some q
    /\ Player.alive q = true.
Proof.
  destruct (respawn_at_deadline "b" fallen 3600 (1/10) no_random
              [gunner 1600; fallen] no_random_unit eq_refl eq_refl)
    as (q & H1 & H2 & _).
  - discriminate.
  - simpl. unfold RESPAWN_TIME. lia.
  - exists q. split; assumption.
Defined.

Lemma step_bullet_live now dt ps b b' :
  snd (step_bullet now dt ps b) = Some b' -> expired now b' = false.
Proof.
  unfold step_bullet.
  destruct (expired now (move_bullet dt b)) eqn:Ee; [discriminate|].
  destruct (out_of_world (move_bullet dt b)); [discriminate|].
  destruct (collide now (move_bullet dt b) ps) as [ps' h].
  destruct h; simpl; [discriminate|]. intros [= <-]. exact Ee.
Qed.

(** X17.  After a tick every bullet still in the store is at most
    [BULLET_LIFETIME] old: no bullet outlives its lifetime across a tick,
    wherever it is. *)
Theorem tick_expires_bullets
    (now : Z) (rnd : nat -> R) (w : World) (b : Bullet.t) :
  In b (bullets (tick now rnd w)) ->
  now - Bullet.born b <= BULLET_LIFETIME.
Proof.
  rewrite tick_bullets.
  generalize (update_players now (tick_dt now (lastTick w)) rnd 0 (players w)).
  generalize (tick_dt now (lastTick w)). intros dt.
  induction (bullets w) as [|b0 bs IH]; intros ps; simpl; [contradiction|].
  pose proof (step_bullet_live now dt ps b0) as Hl.
  destruct (step_bullet now dt ps b0) as [ps' kept]. simpl in Hl.
  specialize (IH ps').
  destruct (update_bullets now dt ps' bs) as [ps'' rest']. simpl in *.
  destruct kept as [b'|]; [|exact IH].
  intros [<-|Hin]; [|now apply IH].
  pose proof (Hl b' eq_refl) as He. unfold expired in He.
  now apply Z.ltb_ge in He.
Qed.

(** A witness for X17: the bullet of the first shot, 2000 ms old. *)
Lemma tick_expires_bullets_witness :
  3000 - Bullet.born (move_bullet (tick_dt 3000 0) b1) <= BULLET_LIFETIME.
Proof.
  apply (tick_expires_bullets 3000 no_random shot_fired
           (move_bullet (tick_dt 3000 0) b1)).
  rewrite tick_bullets.
  change (bullets shot_fired) with [b1].
  rewrite update_bullets_cons.
  change (lastTick shot_fired) with 0.
  rewrite b1_not_terminal.
  - left. reflexivity.
  - cbn. intros p [<-|[]]. reflexivity.
Defined.
